(** * maxcalorie.hh: greedy and exhaustive selection of food items

    A shallow embedding of [src/maxcalorie.hh] and the properties of its
    two solvers, [greedy_max_calories] and [exhaustive_max_calories], of
    [filter_food_vector] and of [load_food_database].

    Conventions of the embedding.
    - A C++ [double] is a binary64 floating-point number ([float], the
      primitive floats of Rocq): every sum and every quotient is rounded to
      the nearest double, ties to even, and there are two zeros, two
      infinities and NaN.  [x <= y] is [(x <=? y)%float] and [x > y] is
      [(y <? x)%float]; every comparison with NaN is false.  Where a
      statement needs the number a double stands for, [exact_value] gives
      it as a rational.
    - A [std::shared_ptr<FoodItem>] is the address it holds together with
      the (immutable) object found there.  Two handles are the same
      reference exactly when their addresses agree.  [new FoodItem(...)]
      takes the next address not in use.
    - A C++ [int] is a [Z] in the range of 32 bits.  [int(v.size())] is the
      size reduced to that range.  Converting a [double] that does not fit
      an [int] has no defined behaviour; the embedding records that as the
      outcome [Undefined].
    - [std::sort] is taken by its contract: a permutation of its input in
      which, when no key is NaN, no element stands before one that the
      comparator puts first.  The order of elements the comparator does
      not separate is left open by the contract; for what one
      implementation does with them, [libstdcxx_sort] follows the
      [std::sort] of the GNU C++ library step by step.
    - A file is the text it holds, or nothing when it cannot be opened;
      [std::getline] is taken by its contract.  What [ss >> output] does
      with a text is a parameter: the number it stores in [output], or
      nothing when it stores none and leaves [output] as it was.  Reading
      a [double] that was never given a value has no defined behaviour;
      the embedding records that as the outcome [Indeterminate].  What the
      functions write to [std::cout] is not part of the model. *)

From Stdlib Require Import ZArith QArith Lia String Ascii Floats.
From stdpp Require Import base list sorting.

Set Warnings "-inexact-float".

Local Open Scope Z_scope.

(** ** Loops *)

(** [for (int i = lo; ...; i++) body], run for [count] rounds. *)
Fixpoint for_loop {S : Type} (i : Z) (count : nat) (body : Z -> S -> S) (s : S) : S :=
  match count with
  | O => s
  | Datatypes.S c => for_loop (i + 1) c body (body i s)
  end.

(** [for (int i = lo; i < hi; i++) body]. *)
Definition for_int {S : Type} (lo hi : Z) (body : Z -> S -> S) (s : S) : S :=
  for_loop lo (Z.to_nat (hi - lo)) body s.

(** ** Numbers *)

(** Width of [int] and its largest value. *)
Definition INT_BITS : Z := 32.
Definition INT_MAX : Z := 2 ^ (INT_BITS - 1) - 1.

(** [int bitSize = pow(2, n)]: the power is exact as a double; the
    conversion to [int] is defined only when the value fits. *)
Definition pow2_to_int (n : nat) : option Z :=
  let p := 2 ^ Z.of_nat n in
  if p <=? INT_MAX then Some p else None.

(** [int(v.size())]: the size reduced to the 32 bits of an [int]. *)
Definition int_of_size (n : nat) : Z :=
  let z := Z.of_nat n mod 2 ^ INT_BITS in
  if z <=? INT_MAX then z else z - 2 ^ INT_BITS.

(** ** Data model *)

(** [class FoodItem]. *)
Record FoodItem := mkFoodItem {
  description : string;
  weight : float;
  foodCalories : float
}.

(** The two assertions of the constructor of [FoodItem]:
    [!description.empty()] and [weight_ounces > 0]. *)
Definition FoodItem_valid (f : FoodItem) : Prop :=
  description f <> EmptyString /\ (0 <? weight f)%float = true.

(** [std::shared_ptr<FoodItem>]: the address held, and the object there. *)
Record shared_ptr := SharedPtr {
  address : nat;
  target : FoodItem
}.

(** [typedef std::vector<std::shared_ptr<FoodItem>> FoodVector]. *)
Abbreviation FoodVector := (list shared_ptr).

(** [v.push_back(x)]. *)
Definition push_back {A : Type} (v : list A) (x : A) : list A := v ++ [x].

(** [sum_food_vector]: the two totals, accumulated from zero in the order
    of the vector, each addition rounded. *)
Definition sum_food_vector (foods : FoodVector) : float * float :=
  fold_left
    (fun totals food =>
       ((fst totals + weight (target food))%float,
        (snd totals + foodCalories (target food))%float))
    foods (0%float, 0%float).

Definition total_weight_of (foods : FoodVector) : float := fst (sum_food_vector foods).
Definition total_calories_of (foods : FoodVector) : float := snd (sum_food_vector foods).

(** ** Exhaustive search *)

(** What a call of [exhaustive_max_calories] comes to. *)
Inductive outcome :=
| Returned (best : FoodVector)
| Undefined.

(** The variables of [exhaustive_max_calories] that its loops update. *)
Record search := mkSearch {
  BestFoodVector : FoodVector;
  bestTotalCalries : float;
  CandidateFoodVector : FoodVector;
  candTotalWeight : float;
  candTotalCalories : float
}.

(** [((bit >> j) & 1) == 1]. *)
Definition bit_set (bit j : Z) : bool :=
  Z.land (Z.shiftr bit j) 1 =? 1.

(** Body of the loop over [j]. *)
Definition exhaustive_inner (foods : FoodVector) (total_weight : float)
    (bit j : Z) (s : search) : search :=
  let s1 :=
    if bit_set bit j then
      match foods !! Z.to_nat j with
      | Some food =>
          mkSearch (BestFoodVector s) (bestTotalCalries s)
            (push_back (CandidateFoodVector s) food)
            (candTotalWeight s + weight (target food))%float
            (candTotalCalories s + foodCalories (target food))%float
      | None => s
      end
    else s in
  if (candTotalWeight s1 <=? total_weight)%float then
    if (bestTotalCalries s1 <? candTotalCalories s1)%float then
      mkSearch (fold_left push_back (CandidateFoodVector s1) [])
        (candTotalCalories s1)
        (CandidateFoodVector s1) (candTotalWeight s1) (candTotalCalories s1)
    else s1
  else s1.

(** Body of the loop over [bit]. *)
Definition exhaustive_outer (foods : FoodVector) (total_weight : float)
    (bit : Z) (s : search) : search :=
  for_int 0 (int_of_size (length foods)) (exhaustive_inner foods total_weight bit)
    (mkSearch (BestFoodVector s) (bestTotalCalries s) [] 0%float 0%float).

(** [exhaustive_max_calories]. *)
Definition exhaustive_max_calories (foods : FoodVector) (total_weight : float) : outcome :=
  match pow2_to_int (length foods) with
  | None => Undefined
  | Some bitSize =>
      Returned
        (BestFoodVector
           (for_int 0 bitSize (exhaustive_outer foods total_weight)
              (mkSearch [] 0%float foods 0%float 0%float)))
  end.

(** ** Greedy selection *)

(** [struct percentItem]: an item, copied, with its calories per ounce. *)
Record percentItem := mkPercentItem {
  percent : float;
  item : FoodItem
}.

(** [struct sortPercentage]: the comparator handed to [std::sort],
    [firstSet.percent > secondSet.percent]. *)
Definition sortPercentage (firstSet secondSet : percentItem) : bool :=
  (percent secondSet <? percent firstSet)%float.

(** [a] may stand before [b] in a vector sorted with [sortPercentage]:
    the comparator does not put [b] first. *)
Definition ranked_before (a b : percentItem) : Prop :=
  sortPercentage b a = false.

(** The key of [p] is a number, not NaN. *)
Definition percent_is_number (p : percentItem) : Prop :=
  is_nan (percent p) = false.

(** The contract of [std::sort(first, last, sortPercentage())]: it only
    moves the elements of the vector, and it leaves no element before one
    that the comparator puts first.  With NaN among the keys the
    comparator is no strict weak order, and no order is promised. *)
Record StdSort := mkStdSort {
  std_sort : list percentItem -> list percentItem;
  std_sort_permutation : forall v, std_sort v ≡ₚ v;
  std_sort_sorted : forall v,
    Forall percent_is_number v -> StronglySorted ranked_before (std_sort v)
}.

(** The first loop of [greedy_max_calories]: one [percentItem] per food,
    with the rounded quotient of its calories by its weight. *)
Definition percent_items (foods : FoodVector) : list percentItem :=
  fold_left
    (fun v food =>
       push_back v
         (mkPercentItem
            (foodCalories (target food) / weight (target food))%float
            (target food)))
    foods [].

(** The variables of [greedy_max_calories] that its last loop updates,
    and the next address [new] hands out. *)
Record greedy := mkGreedy {
  GreedyFoodVector : FoodVector;
  capacity : float;
  tempWeight : float;
  next_address : nat
}.

(** Body of the loop over [i]. *)
Definition greedy_body (percentItemVector : list percentItem) (total_weight : float)
    (i : Z) (s : greedy) : greedy :=
  match percentItemVector !! Z.to_nat i with
  | Some p =>
      let tw := (capacity s + weight (item p))%float in
      if (tw <=? total_weight)%float then
        mkGreedy
          (push_back (GreedyFoodVector s) (SharedPtr (next_address s) (item p)))
          (capacity s + weight (item p))%float
          tw
          (Datatypes.S (next_address s))
      else mkGreedy (GreedyFoodVector s) (capacity s) tw (next_address s)
  | None => s
  end.

(** The state of the last loop after [k] rounds. *)
Definition greedy_after (percentItemVector : list percentItem) (total_weight : float)
    (free : nat) (k : nat) : greedy :=
  for_loop 0 k (greedy_body percentItemVector total_weight)
    (mkGreedy [] 0%float 0%float free).

(** [greedy_max_calories].  [free] is the first address not in use when
    the call starts. *)
Definition greedy_max_calories (sorter : StdSort) (free : nat)
    (foods : FoodVector) (total_weight : float) : FoodVector :=
  let percentItemVector := std_sort sorter (percent_items foods) in
  GreedyFoodVector
    (greedy_after percentItemVector total_weight free
       (Z.to_nat (int_of_size (length percentItemVector) - 0))).

(** ** Filtering a catalog *)

(** [food->foodCalories() >= min_calories
     && food->foodCalories() <= max_calories]. *)
Definition calories_within (min_calories max_calories : float) (food : shared_ptr) : bool :=
  (min_calories <=? foodCalories (target food))%float
  && (foodCalories (target food) <=? max_calories)%float.

(** The loop of [filter_food_vector] over [source]; [break] ends it. *)
Fixpoint filter_loop (source : FoodVector) (min_calories max_calories : float)
    (total_size : Z) (FilteredFoodVector : FoodVector) : FoodVector :=
  match source with
  | [] => FilteredFoodVector
  | food :: rest =>
      if calories_within min_calories max_calories food then
        if int_of_size (length FilteredFoodVector) <? total_size then
          filter_loop rest min_calories max_calories total_size
            (push_back FilteredFoodVector food)
        else FilteredFoodVector
      else
        filter_loop rest min_calories max_calories total_size FilteredFoodVector
  end.

(** [filter_food_vector]. *)
Definition filter_food_vector (source : FoodVector) (min_calories max_calories : float)
    (total_size : Z) : FoodVector :=
  filter_loop source min_calories max_calories total_size [].

(** ** Loading a catalog *)

(** The strings that [for (std::string s; std::getline(stream, s, delim); )]
    goes through.  One call takes the characters up to the next [delim],
    which it drops, or up to the end of the stream; it fails, and the loop
    ends, when it can take nothing at all.  [field] holds the characters
    taken so far by the call under way. *)
Fixpoint getline_all (delim : ascii) (field : string) (stream : string) : list string :=
  match stream with
  | EmptyString =>
      match field with
      | EmptyString => []
      | _ => [field]
      end
  | String c rest =>
      if Ascii.eqb c delim then field :: getline_all delim EmptyString rest
      else getline_all delim (append field (String c EmptyString)) rest
  end.

(** What [load_food_database] comes to: the vector, the null pointer, the
    failed assertion of a [FoodItem] under construction, or the use of a
    [double] that holds no value yet. *)
Inductive load_result :=
| Loaded (result : FoodVector)
| Failure
| Aborted
| Indeterminate.

(** [new FoodItem(description, weight_ounces, calories)], with the two
    assertions of the constructor. *)
Definition new_FoodItem (description : string) (weight_ounces calories : float)
    : option FoodItem :=
  if (negb (String.eqb description EmptyString) && (0 <? weight_ounces)%float)%bool
  then Some (mkFoodItem description weight_ounces calories)
  else None.

Section Loader.

(** What [ss >> output] does for a stream over the given text: the number
    it stores in [output], or [None] when it stores nothing (the text has
    no character to read). *)
Variable read_double : string -> option float.

(** The lambda [parse_dbl]: a stream over a string is never bad, so the
    answer is always [true]; with it, what has been stored in [output]. *)
Definition parse_dbl (field : string) : bool * option float :=
  (true, read_double field).

(** The loop of [load_food_database] over the lines of the file.
    [free] is the next address [new] hands out.  The locals
    [weight_ounces] and [calories] are declared without a value: each
    holds one only when [parse_dbl] has stored it. *)
Fixpoint load_lines (lines : list string) (line_number : nat)
    (result : FoodVector) (free : nat) : load_result :=
  match lines with
  | [] => Loaded result
  | line :: rest =>
      let line_number := Datatypes.S line_number in
      if (line_number =? 1)%nat then load_lines rest line_number result free
      else
        let fields := getline_all "^"%char EmptyString line in
        if negb (length fields =? 3)%nat then Failure
        else
          let descr_field := nth 0 fields EmptyString in
          let weight_ounces_field := nth 1 fields EmptyString in
          let calories_field := nth 2 fields EmptyString in
          let weight_ounces := parse_dbl weight_ounces_field in
          let calories := parse_dbl calories_field in
          if (fst weight_ounces && fst calories)%bool then
            match snd weight_ounces, snd calories with
            | Some w, Some c =>
                match new_FoodItem descr_field w c with
                | Some food =>
                    load_lines rest line_number
                      (push_back result (SharedPtr free food)) (Datatypes.S free)
                | None => Aborted
                end
            | _, _ => Indeterminate
            end
          else load_lines rest line_number result free
  end.

(** [load_food_database].  [file] is the text of the file at [path], or
    [None] when it cannot be opened. *)
Definition load_food_database (free : nat) (file : option string) : load_result :=
  match file with
  | None => Failure
  | Some text => load_lines (getline_all "010"%char EmptyString text) 0 [] free
  end.

End Loader.

(** ** The [std::sort] of the GNU C++ library

    [bits/stl_algo.h]: quicksort on ranges of more than 16 elements, with
    the median of three as pivot, then one insertion sort over the whole
    vector.  The vector is a list, an iterator a position in it.  A read
    outside the vector gives [None]; so does the branch to heap sort
    ([__partial_sort], taken when the depth limit is used up), which is
    not followed here. *)

Section LibstdcxxSort.

Context {A : Type}.
Variable comp : A -> A -> bool.

(** [std::iter_swap(i, j)]. *)
Definition iter_swap (v : list A) (i j : nat) : option (list A) :=
  match v !! i, v !! j with
  | Some x, Some y => Some (<[j := x]> (<[i := y]> v))
  | _, _ => None
  end.

(** [__move_median_to_first(result, a, b, c, comp)]. *)
Definition move_median_to_first (v : list A) (result a b c : nat) : option (list A) :=
  match v !! a, v !! b, v !! c with
  | Some x, Some y, Some z =>
      if comp x y then
        if comp y z then iter_swap v result b
        else if comp x z then iter_swap v result c
        else iter_swap v result a
      else if comp x z then iter_swap v result a
      else if comp y z then iter_swap v result c
      else iter_swap v result b
  | _, _, _ => None
  end.

(** [while (comp(first, pivot)) ++first;] *)
Fixpoint partition_forward (fuel : nat) (v : list A) (first pivot : nat) : option nat :=
  match fuel with
  | O => None
  | Datatypes.S fuel' =>
      match v !! first, v !! pivot with
      | Some x, Some p =>
          if comp x p then partition_forward fuel' v (Datatypes.S first) pivot
          else Some first
      | _, _ => None
      end
  end.

(** [while (comp(pivot, last)) --last;] *)
Fixpoint partition_backward (fuel : nat) (v : list A) (last pivot : nat) : option nat :=
  match fuel with
  | O => None
  | Datatypes.S fuel' =>
      match v !! pivot, v !! last with
      | Some p, Some y =>
          if comp p y then
            match last with
            | O => None
            | Datatypes.S last' => partition_backward fuel' v last' pivot
            end
          else Some last
      | _, _ => None
      end
  end.

(** [__unguarded_partition(first, last, pivot, comp)]: the vector after
    the swaps, and the position returned. *)
Fixpoint unguarded_partition (fuel : nat) (v : list A) (first last pivot : nat)
    : option (list A * nat) :=
  match fuel with
  | O => None
  | Datatypes.S fuel' =>
      match partition_forward (Datatypes.S (length v)) v first pivot, last with
      | Some first', Datatypes.S last1 =>
          match partition_backward (Datatypes.S (length v)) v last1 pivot with
          | Some last' =>
              if negb (first' <? last')%nat then Some (v, first')
              else
                match iter_swap v first' last' with
                | Some v' => unguarded_partition fuel' v' (Datatypes.S first') last' pivot
                | None => None
                end
          | None => None
          end
      | _, _ => None
      end
  end.

(** [__unguarded_partition_pivot(first, last, comp)]. *)
Definition unguarded_partition_pivot (v : list A) (first last : nat)
    : option (list A * nat) :=
  let mid := (first + (last - first) / 2)%nat in
  match move_median_to_first v first (first + 1) mid (last - 1) with
  | Some v' => unguarded_partition (Datatypes.S (length v)) v' (first + 1) last first
  | None => None
  end.

(** [_S_threshold]. *)
Definition S_threshold : nat := 16.

(** [__introsort_loop(first, last, depth_limit, comp)]; a further round
    of its [while] is a further call. *)
Fixpoint introsort_loop (fuel : nat) (v : list A) (first last depth_limit : nat)
    : option (list A) :=
  match fuel with
  | O => None
  | Datatypes.S fuel' =>
      if (S_threshold <? last - first)%nat then
        match depth_limit with
        | O => None
        | Datatypes.S depth_limit' =>
            match unguarded_partition_pivot v first last with
            | Some (v1, cut) =>
                match introsort_loop fuel' v1 cut last depth_limit' with
                | Some v2 => introsort_loop fuel' v2 first cut depth_limit'
                | None => None
                end
            | None => None
            end
        end
      else Some v
  end.

(** [__unguarded_linear_insert(last, comp)], with [val] taken out of the
    vector already. *)
Fixpoint unguarded_linear_insert (fuel : nat) (v : list A) (val : A) (last : nat)
    : option (list A) :=
  match fuel, last with
  | Datatypes.S fuel', Datatypes.S next =>
      match v !! next with
      | Some y =>
          if comp val y then unguarded_linear_insert fuel' (<[last := y]> v) val next
          else Some (<[last := val]> v)
      | None => None
      end
  | _, _ => None
  end.

(** One round of the loop of [__insertion_sort(first, last, comp)], for
    the position [i]. *)
Definition insertion_sort_round (first : nat) (v : list A) (i : nat) : option (list A) :=
  match v !! i, v !! first with
  | Some val, Some x =>
      if comp val x then
        Some (take first v ++ val :: take (i - first) (drop first v)
              ++ drop (Datatypes.S i) v)
      else unguarded_linear_insert (Datatypes.S (length v)) v val i
  | _, _ => None
  end.

(** A loop over the positions [i], [i + 1], ..., [count] of them. *)
Fixpoint sort_rounds (round : list A -> nat -> option (list A)) (v : list A)
    (i count : nat) : option (list A) :=
  match count with
  | O => Some v
  | Datatypes.S count' =>
      match round v i with
      | Some v' => sort_rounds round v' (Datatypes.S i) count'
      | None => None
      end
  end.

(** [__insertion_sort(first, last, comp)]. *)
Definition insertion_sort (v : list A) (first last : nat) : option (list A) :=
  if (first =? last)%nat then Some v
  else sort_rounds (insertion_sort_round first) v (first + 1) (last - (first + 1)).

(** [__unguarded_insertion_sort(first, last, comp)]. *)
Definition unguarded_insertion_sort (v : list A) (first last : nat) : option (list A) :=
  sort_rounds
    (fun v i =>
       match v !! i with
       | Some val => unguarded_linear_insert (Datatypes.S (length v)) v val i
       | None => None
       end)
    v first (last - first).

(** [__final_insertion_sort(first, last, comp)]. *)
Definition final_insertion_sort (v : list A) (first last : nat) : option (list A) :=
  if (S_threshold <? last - first)%nat then
    match insertion_sort v first (first + S_threshold) with
    | Some v' => unguarded_insertion_sort v' (first + S_threshold) last
    | None => None
    end
  else insertion_sort v first last.

(** [std::sort(v.begin(), v.end(), comp)]; [std::__lg(n)] is the whole
    part of the binary logarithm. *)
Definition libstdcxx_sort (v : list A) : option (list A) :=
  match v with
  | [] => Some v
  | _ =>
      match introsort_loop (Datatypes.S (length v)) v 0 (length v)
              (Nat.log2 (length v) * 2) with
      | Some v' => final_insertion_sort v' 0 (length v)
      | None => None
      end
  end.

End LibstdcxxSort.

(** * Definitions for the statements and the analysis *)

(** ** The order of the doubles *)

(** Where a number stands among the doubles: the infinities at the ends,
    both zeros together in the middle, a finite number by its sign, its
    exponent and its mantissa.  NaN stands nowhere. *)
Definition sf_key (x : spec_float) : option (Z * Z * Z) :=
  match x with
  | S754_nan => None
  | S754_infinity true => Some (-2, 0, 0)
  | S754_infinity false => Some (2, 0, 0)
  | S754_zero _ => Some (0, 0, 0)
  | S754_finite true m e => Some (-1, - e, - Z.pos m)
  | S754_finite false m e => Some (1, e, Z.pos m)
  end.

Definition key_lt (a b : Z * Z * Z) : Prop :=
  let '(a1, a2, a3) := a in
  let '(b1, b2, b3) := b in
  a1 < b1 \/ (a1 = b1 /\ (a2 < b2 \/ (a2 = b2 /\ a3 < b3))).

Definition key_eq (a b : Z * Z * Z) : Prop :=
  let '(a1, a2, a3) := a in
  let '(b1, b2, b3) := b in
  a1 = b1 /\ a2 = b2 /\ a3 = b3.

(** The place of a double, and the two orders on places. *)
Definition fkey (x : float) : option (Z * Z * Z) := sf_key (Prim2SF x).

Definition okey_lt (oa ob : option (Z * Z * Z)) : Prop :=
  match oa, ob with
  | Some a, Some b => key_lt a b
  | _, _ => False
  end.

Definition okey_le (oa ob : option (Z * Z * Z)) : Prop :=
  match oa, ob with
  | Some a, Some b => key_lt a b \/ key_eq a b
  | _, _ => False
  end.

(** ** The numbers that doubles stand for *)

(** The rational a finite double stands for; zero for the others. *)
Definition exact_value (x : float) : Q :=
  match Prim2SF x with
  | S754_finite s m e => (inject_Z (cond_Zopp s (Z.pos m)) * Qpower 2 e)%Q
  | _ => 0%Q
  end.

(** The sum of a list of rationals. *)
Definition Qsum (l : list Q) : Q := foldr Qplus 0%Q l.

(** The total weight and the total calories of a vector without any
    rounding. *)
Definition exact_weight_of (foods : FoodVector) : Q :=
  Qsum ((fun food => exact_value (weight (target food))) <$> foods).

Definition exact_calories_of (foods : FoodVector) : Q :=
  Qsum ((fun food => exact_value (foodCalories (target food))) <$> foods).

(** ** The search as the specification words it *)

(** The number of counter values for a catalog of [n] items. *)
Definition subsets (n : nat) : nat := Z.to_nat (2 ^ Z.of_nat n).

(** "Each counter value denotes a subset via its bit pattern (bit j set:
    item j included)." *)
Definition spec_subset (catalog : FoodVector) (counter : Z) : FoodVector :=
  snd <$> filter (fun jf => Z.testbit counter (Z.of_nat (fst jf)) = true)
            (imap pair catalog).

(** "If the subset is feasible and its total value strictly exceeds the
    best value found so far, record it as the new best (value and the
    subset itself)." *)
Definition spec_examine (catalog : FoodVector) (capacity : float) (counter : Z)
    (best : FoodVector * float) : FoodVector * float :=
  let subset := spec_subset catalog counter in
  let totals := sum_food_vector subset in
  if ((fst totals <=? capacity)%float && (snd best <? snd totals)%float)%bool
  then (subset, snd totals)
  else best.

(** "Iterate an integer counter from 0 to 2^n - 1 inclusive ... After all
    2^n subsets are examined, return the best recorded subset, or an empty
    result."  Each subset is examined once, when complete. *)
Definition exhaustive_select_spec (catalog : FoodVector) (capacity : float) : FoodVector :=
  fst (for_loop 0 (subsets (length catalog)) (spec_examine catalog capacity)
         ([], 0%float)).

(** ** Candidates and comparisons of the exhaustive search *)

(** The foods among the first [k] whose bit is set in [bit], in the order
    of the catalog: the candidate after [k] rounds of the loop over [j]. *)
Fixpoint select (foods : FoodVector) (bit : Z) (k : nat) : FoodVector :=
  match k with
  | O => []
  | Datatypes.S k' =>
      select foods bit k'
      ++ (if bit_set bit (Z.of_nat k') then option_list (foods !! k') else [])
  end.

(** The subset that the counter value [bit] denotes. *)
Definition subset_of (foods : FoodVector) (bit : Z) : FoodVector :=
  select foods bit (length foods).

(** One comparison of a candidate with the best so far. *)
Definition consider (total_weight : float) (cand : FoodVector)
    (best : FoodVector * float) : FoodVector * float :=
  if (total_weight_of cand <=? total_weight)%float then
    if (snd best <? total_calories_of cand)%float then
      (cand, total_calories_of cand)
    else best
  else best.

(** The comparisons made during [k] rounds of the loop over [j]. *)
Fixpoint prefix_checks (foods : FoodVector) (total_weight : float) (bit : Z)
    (k : nat) (best : FoodVector * float) : FoodVector * float :=
  match k with
  | O => best
  | Datatypes.S k' =>
      consider total_weight (select foods bit (Datatypes.S k'))
        (prefix_checks foods total_weight bit k' best)
  end.

(** Every feasible subset of a counter value below [bound] has been
    accounted for in [best]: its calories are not greater. *)
Definition covers (foods : FoodVector) (W : float) (bound : Z)
    (best : FoodVector * float) : Prop :=
  forall m, 0 <= m < bound ->
    (total_weight_of (subset_of foods m) <=? W)%float = true ->
    (snd best <? total_calories_of (subset_of foods m))%float = false.

Definition best_of (s : search) : FoodVector * float :=
  (BestFoodVector s, bestTotalCalries s).

(** The best subset and its calories after the counter values below [k],
    each subset compared once. *)
Definition full_checks (foods : FoodVector) (W : float) (k : nat) : FoodVector * float :=
  for_loop 0 k (fun bit best => consider W (subset_of foods bit) best) ([], 0%float).

(** ** Ratios, ties and rejection *)

(** The calories per ounce of a food, as the code computes them. *)
Definition ratio (f : FoodItem) : float := (foodCalories f / weight f)%float.

(** The calories per ounce of a food without rounding. *)
Definition exact_ratio (f : FoodItem) : Q :=
  (exact_value (foodCalories f) / exact_value (weight f))%Q.

(** No computed ratio of the catalog is NaN. *)
Definition ratios_are_numbers (foods : FoodVector) : Prop :=
  Forall (fun food => is_nan (ratio (target food)) = false) foods.

(** C5 as stated: in the ranking, the items of any one ratio stand in the
    order they have in the input. *)
Definition keeps_order_of_ties (input ranking : list percentItem) : Prop :=
  forall q : float,
    filter (fun p => (percent p =? q)%float = true) ranking
    = filter (fun p => (percent p =? q)%float = true) input.

(** The comparator separates every two items of the catalog: of their
    computed ratios, one is greater than the other. *)
Definition distinct_ratios (foods : FoodVector) : Prop :=
  forall i j a b, i <> j -> foods !! i = Some a -> foods !! j = Some b ->
    (ratio (target a) <? ratio (target b))%float = true
    \/ (ratio (target b) <? ratio (target a))%float = true.

(** C3 as stated: from some bound below the width of the counter on, the
    call is rejected; it neither returns a selection nor lets the counter
    overflow. *)
Definition rejects_from (bound : nat) : Prop :=
  forall foods W, (bound <= length foods)%nat ->
    (forall best, exhaustive_max_calories foods W <> Returned best)
    /\ exhaustive_max_calories foods W <> Undefined.

(** ** Catalogs for the examples *)

Definition apple : shared_ptr := SharedPtr 0 (mkFoodItem "apple" 1 10).
Definition bread : shared_ptr := SharedPtr 1 (mkFoodItem "bread" 1 20).
Definition plum : shared_ptr := SharedPtr 2 (mkFoodItem "plum" 1 10).

(** A catalog of [n] different items of one ounce and one calorie each. *)
Definition catalog_of_size (n : nat) : FoodVector :=
  (fun i => SharedPtr i (mkFoodItem "ration" 1 1)) <$> seq 0 n.

(** The catalog of the "greedy suboptimality" scenario, capacity 10. *)
Definition item_A : shared_ptr := SharedPtr 0 (mkFoodItem "A" 1 10).
Definition item_B : shared_ptr := SharedPtr 1 (mkFoodItem "B" 10 100).
Definition item_C : shared_ptr := SharedPtr 2 (mkFoodItem "C" 9 95).

(** Three items whose weights are no binary fractions; capacity 0.6. *)
Definition tea : shared_ptr := SharedPtr 0 (mkFoodItem "tea" 0.1 1).
Definition nuts : shared_ptr := SharedPtr 1 (mkFoodItem "nuts" 0.2 10).
Definition oats : shared_ptr := SharedPtr 2 (mkFoodItem "oats" 0.3 30).

(** An item of 2^53 ounces beside one of a single ounce. *)
Definition boulder : shared_ptr :=
  SharedPtr 0 (mkFoodItem "boulder" 9007199254740992 5).
Definition pebble : shared_ptr := SharedPtr 1 (mkFoodItem "pebble" 1 1).


(** An item of 2^53 calories beside two of a single calorie. *)
Definition feast : shared_ptr :=
  SharedPtr 0 (mkFoodItem "feast" 1 9007199254740992).
Definition grape : shared_ptr := SharedPtr 1 (mkFoodItem "grape" 1 1).
Definition berry : shared_ptr := SharedPtr 2 (mkFoodItem "berry" 1 1).

(** Two selections whose calories round to the same double; capacities 2
    and 4. *)
Definition roast : shared_ptr :=
  SharedPtr 0 (mkFoodItem "roast" 3 9007199254740994).
Definition olive : shared_ptr := SharedPtr 1 (mkFoodItem "olive" 1 1).
Definition cheese : shared_ptr :=
  SharedPtr 2 (mkFoodItem "cheese" 2 9007199254740996).

(** Two items whose rounded ratios are the same double, though a third of
    a calorie per ounce is more than 0.3333333333333333. *)
Definition sip : shared_ptr := SharedPtr 0 (mkFoodItem "sip" 1 0.3333333333333333).
Definition cup : shared_ptr := SharedPtr 1 (mkFoodItem "cup" 3 1).

(** A catalog whose last item is turned away by rounding: 0.7 + 1.5 + 1.7
    is computed above 3.9. *)
Definition rice : shared_ptr := SharedPtr 0 (mkFoodItem "rice" 1.7 1).
Definition mint : shared_ptr := SharedPtr 1 (mkFoodItem "mint" 0.7 7).
Definition figs : shared_ptr := SharedPtr 2 (mkFoodItem "figs" 1.5 3).

(** The letters [A], [B], ... as descriptions. *)
Definition letter (i : nat) : string :=
  String (ascii_of_nat (65 + i)) EmptyString.

(** A catalog of [n] items that differ in their description only, each of
    one ounce and one calorie: [A], [B], [C], ... *)
Definition tied_catalog (n : nat) : FoodVector :=
  (fun i => SharedPtr i (mkFoodItem (letter i) 1 1)) <$> seq 0 n.

(** ** Rows and a reader for the examples *)

(** A row that gives an item: three fields, the first not empty, the
    second and the third both read as numbers, the second as a positive
    one. *)
Definition row_item (read_double : string -> option float) (line : string)
    (food : FoodItem) : Prop :=
  exists d w c x y,
    getline_all "^"%char EmptyString line = [d; w; c]
    /\ read_double w = Some x
    /\ read_double c = Some y
    /\ food = mkFoodItem d x y
    /\ FoodItem_valid food.

(** [true] when [c] occurs in [s]. *)
Fixpoint occurs (c : ascii) (s : string) : bool :=
  match s with
  | EmptyString => false
  | String c' rest => (Ascii.eqb c' c || occurs c rest)%bool
  end.

(** A reader for the examples: the whole number the leading digits spell,
    zero when the text starts with no digit, and nothing stored for the
    empty text. *)
Fixpoint read_digits (s : string) (acc : Z) : Z :=
  match s with
  | EmptyString => acc
  | String c rest =>
      let n := Z.of_nat (nat_of_ascii c) in
      if ((48 <=? n) && (n <=? 57))%bool then read_digits rest (10 * acc + (n - 48))
      else acc
  end.

Definition read_whole (s : string) : option float :=
  match s with
  | EmptyString => None
  | _ => Some (of_uint63 (Uint63.of_Z (read_digits s 0)))
  end.

(** A file of a header and two rows, the second with a closing separator. *)
Definition sample_file : string :=
  String.concat (String "010"%char EmptyString)
    ["description^weight^calories"; "apple^1^10"; "bread^1^20^"]%string.

(** ** Rounding, for the analysis of the sums

    A double that is zero or more is given by its multiple of 2^emin, the
    smallest positive double: its scaled value. *)

(** What [n] shifts leave of [M]: the quotient, the last bit shifted out,
    and whether any bit before it was set. *)
Definition shifted (M n : Z) : shr_record :=
  Build_shr_record (M / 2 ^ n) (Z.testbit M (n - 1))
    (negb (M mod 2 ^ (n - 1) =? 0)).

(** [S / 2^c] rounded to the nearest integer, ties to the even one. *)
Definition rne (S c : Z) : Z :=
  let q := S / 2 ^ c in
  let rest := S mod 2 ^ c in
  if 2 * rest <? 2 ^ c then q
  else if 2 ^ c <? 2 * rest then q + 1
  else if Z.even q then q else q + 1.

(** The scaled value [S] rounded to 53 digits: the exponent of its last
    digit kept, the mantissa kept, the exponent after a carry, and the
    rounded value. *)
Definition cexp (S : Z) : Z := Z.max (Zdigits2 S - prec) 0.
Definition mant (S : Z) : Z := rne S (cexp S).
Definition expo (S : Z) : Z := cexp S + (if mant S =? 2 ^ prec then 1 else 0).
Definition round53 (S : Z) : Z := mant S * 2 ^ cexp S.

(** The scaled value of an infinity. *)
Definition INF : Z := 2 ^ (emax - SpecFloat.emin prec emax).

(** The rounded sum, with overflow. *)
Definition Round (S : Z) : Z :=
  if SpecFloat.emin prec emax + expo S <=? emax - prec then round53 S else INF.

(** The scaled value of the positive finite double of mantissa [m] and
    exponent [e]. *)
Definition scaled (m : positive) (e : Z) : Z :=
  Z.pos m * 2 ^ (e - SpecFloat.emin prec emax).

(** The result of rounding the scaled value [S]: a finite double, or the
    infinity when the exponent is out of range. *)
Definition rounds_to (S : Z) (x : spec_float) : Prop :=
  (SpecFloat.emin prec emax + expo S <= emax - prec
   /\ exists m, x = S754_finite false m (SpecFloat.emin prec emax + expo S)
                /\ Z.pos m * 2 ^ expo S = round53 S)
  \/ (emax - prec < SpecFloat.emin prec emax + expo S
      /\ x = S754_infinity false).

(** The scaled value of a double that is zero or more; the infinity counts
    as [INF]. *)
Definition nv (x : spec_float) : Z :=
  match x with
  | S754_finite false m e => scaled m e
  | S754_infinity false => INF
  | _ => 0
  end.

Definition nonneg (x : spec_float) : Prop :=
  match x with
  | S754_zero _ | S754_finite false _ _ | S754_infinity false => True
  | _ => False
  end.

(** * Lemmas *)

(** ** The order of the doubles *)

Lemma SFcompare_key (x y : spec_float) (a b : Z * Z * Z) :
  sf_key x = Some a -> sf_key y = Some b ->
  (SFcompare x y = Some Lt <-> key_lt a b)
  /\ (SFcompare x y = Some Eq <-> a = b)
  /\ (SFcompare x y = Some Gt <-> key_lt b a).
Proof.
  destruct x as [sx | sx | | sx mx ex]; destruct y as [sy | sy | | sy my ey];
    try discriminate;
    try destruct sx; try destruct sy; cbn [sf_key];
    intros [= <-] [= <-]; cbn [SFcompare key_lt];
    try (repeat split; intros H; try discriminate H; try reflexivity;
         try (exfalso; lia); try (inversion H; lia); lia).
  - (* negative, negative *)
    change (Pos.compare_cont Eq mx my) with (mx ?= my)%positive.
    destruct (Z.compare_spec ex ey) as [-> | He | He];
      [destruct (Pos.compare_spec mx my) as [-> | Hm | Hm]| |];
      cbn [CompOpp];
      repeat split; intros H; try discriminate H; try reflexivity;
      try (exfalso; lia); try (inversion H; lia); try lia.
  - (* positive, positive *)
    change (Pos.compare_cont Eq mx my) with (mx ?= my)%positive.
    destruct (Z.compare_spec ex ey) as [-> | He | He];
      [destruct (Pos.compare_spec mx my) as [-> | Hm | Hm]| |];
      repeat split; intros H; try discriminate H; try reflexivity;
      try (exfalso; lia); try (inversion H; lia); try lia.
Qed.

Lemma key_eq_iff (a b : Z * Z * Z) : key_eq a b <-> a = b.
Proof.
  destruct a as [[a1 a2] a3], b as [[b1 b2] b3]. cbn. split.
  - intros (-> & -> & ->). reflexivity.
  - intros [= -> -> ->]. auto.
Qed.

Lemma sf_key_None (x : spec_float) : sf_key x = None -> x = S754_nan.
Proof. destruct x as [s | s | | s m e]; try destruct s; now try discriminate. Qed.

Lemma SFcompare_cases (x y : spec_float) (a b : Z * Z * Z) :
  sf_key x = Some a -> sf_key y = Some b ->
  (SFcompare x y = Some Lt /\ key_lt a b)
  \/ (SFcompare x y = Some Eq /\ key_eq a b)
  \/ (SFcompare x y = Some Gt /\ key_lt b a).
Proof.
  intros Ha Hb.
  destruct (SFcompare_key x y a b Ha Hb) as (Hlt & Heq & Hgt).
  rewrite <- key_eq_iff in Heq.
  assert (Htri : key_lt a b \/ key_eq a b \/ key_lt b a).
  { destruct a as [[a1 a2] a3], b as [[b1 b2] b3]. cbn. lia. }
  destruct Htri as [H | [H | H]].
  - left. split; [apply Hlt, H | exact H].
  - right. left. split; [apply Heq, H | exact H].
  - right. right. split; [apply Hgt, H | exact H].
Qed.

Lemma double_ltb_iff (x y : float) :
  (x <? y)%float = true <-> okey_lt (fkey x) (fkey y).
Proof.
  rewrite FloatAxioms.ltb_spec. unfold SFltb, fkey.
  destruct (sf_key (Prim2SF x)) as [a|] eqn:Ha.
  - destruct (sf_key (Prim2SF y)) as [b|] eqn:Hb.
    + destruct (SFcompare_cases _ _ a b Ha Hb) as [[-> H] | [[-> H] | [-> H]]];
        cbn [okey_lt]; split; intros H'; try discriminate H'; try reflexivity;
        try exact H; exfalso;
        destruct a as [[a1 a2] a3], b as [[b1 b2] b3]; cbn in *; lia.
    + apply sf_key_None in Hb. rewrite Hb.
      destruct (Prim2SF x); cbn; split; intros H; try discriminate H; contradiction.
  - apply sf_key_None in Ha. rewrite Ha. cbn. split; [discriminate | contradiction].
Qed.

Lemma double_leb_iff (x y : float) :
  (x <=? y)%float = true <-> okey_le (fkey x) (fkey y).
Proof.
  rewrite FloatAxioms.leb_spec. unfold SFleb, fkey.
  destruct (sf_key (Prim2SF x)) as [a|] eqn:Ha.
  - destruct (sf_key (Prim2SF y)) as [b|] eqn:Hb.
    + destruct (SFcompare_cases _ _ a b Ha Hb) as [[-> H] | [[-> H] | [-> H]]];
        cbn [okey_le]; split; intros H'; try discriminate H'; try reflexivity;
        auto; exfalso;
        destruct a as [[a1 a2] a3], b as [[b1 b2] b3]; cbn in *; lia.
    + apply sf_key_None in Hb. rewrite Hb.
      destruct (Prim2SF x); cbn; split; intros H; try discriminate H; contradiction.
  - apply sf_key_None in Ha. rewrite Ha. cbn. split; [discriminate | contradiction].
Qed.

Lemma double_ltb_false_iff (x y : float) :
  (x <? y)%float = false <-> ~ okey_lt (fkey x) (fkey y).
Proof. rewrite <- double_ltb_iff. symmetry. apply Bool.not_true_iff_false. Qed.

Lemma double_leb_false_iff (x y : float) :
  (x <=? y)%float = false <-> ~ okey_le (fkey x) (fkey y).
Proof. rewrite <- double_leb_iff. symmetry. apply Bool.not_true_iff_false. Qed.

Lemma is_nan_false_iff (x : float) :
  is_nan x = false <-> (x <=? x)%float = true.
Proof.
  unfold is_nan. rewrite FloatAxioms.eqb_spec, FloatAxioms.leb_spec. unfold SFeqb, SFleb.
  destruct (sf_key (Prim2SF x)) as [a|] eqn:Ha.
  - destruct (SFcompare_cases _ _ a a Ha Ha) as [[-> H] | [[-> H] | [-> H]]];
      cbn; try tauto;
      exfalso; destruct a as [[a1 a2] a3]; cbn in H; lia.
  - apply sf_key_None in Ha. rewrite Ha. cbn. split; discriminate.
Qed.

(** Turns the comparisons of doubles in the goal and the hypotheses into
    comparisons of places, and decides them. *)
Ltac float_order :=
  repeat match goal with
  | H : is_nan _ = false |- _ => apply is_nan_false_iff in H
  | H : (_ <? _)%float = true |- _ => apply double_ltb_iff in H
  | H : (_ <=? _)%float = true |- _ => apply double_leb_iff in H
  | H : (_ <? _)%float = false |- _ => apply double_ltb_false_iff in H
  | H : (_ <=? _)%float = false |- _ => apply double_leb_false_iff in H
  | |- is_nan _ = false => apply is_nan_false_iff
  | |- (_ <? _)%float = true => apply double_ltb_iff
  | |- (_ <=? _)%float = true => apply double_leb_iff
  | |- (_ <? _)%float = false => apply double_ltb_false_iff
  | |- (_ <=? _)%float = false => apply double_leb_false_iff
  end;
  change (fkey 0%float) with (Some (0, 0, 0)) in *;
  repeat match goal with
  | |- context [fkey ?x] => destruct (fkey x) as [[[? ?] ?]|]
  | H : context [fkey ?x] |- _ => destruct (fkey x) as [[[? ?] ?]|]
  end;
  cbn [okey_lt okey_le key_lt key_eq] in *;
  try tauto; try lia.

Lemma double_ltb_irrefl (x : float) : (x <? x)%float = false.
Proof. float_order. Qed.

Lemma double_leb_trans (x y z : float) :
  (x <=? y)%float = true -> (y <=? z)%float = true -> (x <=? z)%float = true.
Proof. intros H1 H2. float_order. Qed.

Lemma double_ltb_leb_false (x y : float) :
  (x <? y)%float = true -> (y <=? x)%float = false.
Proof. intros H. float_order. Qed.

Lemma double_ltb_false_leb (x y : float) :
  (x <? y)%float = false ->
  is_nan x = false -> is_nan y = false ->
  (y <=? x)%float = true.
Proof. intros H Hx Hy. float_order. Qed.

Lemma double_ltb_false_trans (x y z : float) :
  (x <? y)%float = false -> (x <? z)%float = true -> (z <? y)%float = false.
Proof. intros H1 H2. float_order. Qed.

Lemma double_ltb_number (x y : float) :
  (x <? y)%float = true -> is_nan x = false /\ is_nan y = false.
Proof. intros H. split; float_order. Qed.

Lemma double_above_zero (best x : float) :
  (best <? 0)%float = false -> (best <? x)%float = true -> (0 <? x)%float = true.
Proof. intros H1 H2. float_order. Qed.

Lemma double_too_heavy (w W : float) :
  (0 <? w)%float = true -> (W <=? 0)%float = true -> (w <=? W)%float = false.
Proof. intros H1 H2. float_order. Qed.

(** ** Rounding keeps a positive number positive *)

Lemma digits2_pos_lower (m : positive) :
  2 ^ (Z.pos (digits2_pos m) - 1) <= Z.pos m.
Proof.
  induction m as [m IH | m IH |]; cbn [digits2_pos].
  - rewrite Pos2Z.inj_succ.
    replace (Z.succ (Z.pos (digits2_pos m)) - 1)
      with (Z.succ (Z.pos (digits2_pos m) - 1)) by lia.
    rewrite Z.pow_succ_r by lia. lia.
  - rewrite Pos2Z.inj_succ.
    replace (Z.succ (Z.pos (digits2_pos m)) - 1)
      with (Z.succ (Z.pos (digits2_pos m) - 1)) by lia.
    rewrite Z.pow_succ_r by lia. lia.
  - cbn. lia.
Qed.

Lemma shr_1_m (r : shr_record) :
  0 <= shr_m r -> shr_m (shr_1 r) = shr_m r / 2.
Proof.
  destruct r as [m b s]. cbn [shr_m]. intros Hm.
  destruct m as [|p|p]; [reflexivity | | lia].
  destruct p as [p | p |]; cbn [shr_1 shr_m].
  - apply (Z.div_unique _ _ _ 1); lia.
  - apply (Z.div_unique _ _ _ 0); lia.
  - reflexivity.
Qed.

Lemma iter_pos_shr_1_m (p : positive) :
  forall r, 0 <= shr_m r ->
    shr_m (SpecFloat.iter_pos shr_1 p r) = shr_m r / 2 ^ Z.pos p.
Proof.
  assert (Hpow : forall k, 0 < 2 ^ Z.pos k)
    by (intros k; apply Z.pow_pos_nonneg; lia).
  assert (Hnonneg : forall m k, 0 <= m -> 0 <= m / 2 ^ Z.pos k)
    by (intros m k Hm; apply Z.div_pos; [exact Hm | apply Hpow]).
  induction p as [p IH | p IH |]; intros r Hr; cbn [SpecFloat.iter_pos].
  - assert (H1 : shr_m (shr_1 r) = shr_m r / 2) by (apply shr_1_m, Hr).
    assert (H1' : 0 <= shr_m (shr_1 r))
      by (rewrite H1; apply Z.div_pos; lia).
    assert (H2 := IH _ H1').
    assert (H2' : 0 <= shr_m (SpecFloat.iter_pos shr_1 p (shr_1 r)))
      by (rewrite H2; apply Hnonneg, H1').
    rewrite (IH _ H2'), H2, H1.
    pose proof (Hpow p).
    assert (Hx : 2 ^ Z.pos p~1 = 2 * 2 ^ Z.pos p * 2 ^ Z.pos p).
    { replace (Z.pos p~1) with (1 + Z.pos p + Z.pos p) by lia.
      rewrite !Z.pow_add_r by lia. rewrite Z.pow_1_r. reflexivity. }
    rewrite Hx, !Z.div_div by lia. f_equal. lia.
  - assert (H1 := IH _ Hr).
    assert (H1' : 0 <= shr_m (SpecFloat.iter_pos shr_1 p r))
      by (rewrite H1; apply Hnonneg, Hr).
    rewrite (IH _ H1'), H1.
    pose proof (Hpow p).
    assert (Hx : 2 ^ Z.pos p~0 = 2 ^ Z.pos p * 2 ^ Z.pos p).
    { replace (Z.pos p~0) with (Z.pos p + Z.pos p) by lia.
      rewrite Z.pow_add_r by lia. reflexivity. }
    rewrite Hx, Z.div_div by lia. reflexivity.
  - rewrite shr_1_m by exact Hr. reflexivity.
Qed.

Lemma shr_record_of_loc_m (m : Z) (l : location) :
  shr_m (shr_record_of_loc m l) = m.
Proof. destruct l as [|[| |]]; reflexivity. Qed.

Lemma shr_fexp_positive (m e : Z) (l : location) :
  SpecFloat.emin prec emax <= e -> 0 < m ->
  0 < shr_m (fst (shr_fexp prec emax m e l))
  /\ SpecFloat.emin prec emax <= snd (shr_fexp prec emax m e l).
Proof.
  intros He Hm. unfold shr_fexp, shr.
  destruct m as [|p|p]; try lia. cbn [Zdigits2].
  set (d := Z.pos (digits2_pos p)).
  destruct (fexp prec emax (d + e) - e) as [|n|n] eqn:Hn;
    cbn [fst snd]; rewrite ?shr_record_of_loc_m; try (split; lia).
  assert (Hfexp : fexp prec emax (d + e) = d + e - prec).
  { unfold fexp in *. lia. }
  rewrite Hfexp in Hn.
  split; [|lia].
  rewrite iter_pos_shr_1_m by (rewrite shr_record_of_loc_m; lia).
  rewrite shr_record_of_loc_m.
  assert (Hlow := digits2_pos_lower p). fold d in Hlow.
  assert (Hprec : prec = 53) by reflexivity.
  assert (Hle : 2 ^ Z.pos n <= 2 ^ (d - 1)) by (apply Z.pow_le_mono_r; lia).
  apply Z.div_str_pos. split; [apply Z.pow_pos_nonneg; lia | lia].
Qed.

Lemma round_nearest_even_positive (m : Z) (l : location) :
  0 < m -> 0 < round_nearest_even m l.
Proof.
  intros Hm. destruct l as [|[| |]]; cbn; try lia.
  destruct (Z.even m); lia.
Qed.

Lemma binary_round_aux_positive (m e : Z) (l : location) :
  SpecFloat.emin prec emax <= e -> 0 < m ->
  (exists m' e', binary_round_aux prec emax false m e l = S754_finite false m' e')
  \/ binary_round_aux prec emax false m e l = S754_infinity false.
Proof.
  intros He Hm. unfold binary_round_aux.
  destruct (shr_fexp_positive m e l He Hm) as [Hm1 He1].
  destruct (shr_fexp prec emax m e l) as [mrs1 e1]. cbn [fst snd] in *.
  assert (Hr := round_nearest_even_positive (shr_m mrs1) (loc_of_shr_record mrs1) Hm1).
  destruct (shr_fexp_positive _ e1 loc_Exact He1 Hr) as [Hm2 He2].
  destruct (shr_fexp prec emax _ e1 loc_Exact) as [mrs2 e2]. cbn [fst snd] in *.
  destruct (shr_m mrs2) as [|p|p]; try lia.
  destruct (e2 <=? emax - prec); [left; eauto | right; reflexivity].
Qed.

Lemma binary_round_positive (m : positive) (e : Z) :
  SpecFloat.emin prec emax <= e ->
  (exists m' e', binary_round prec emax false m e = S754_finite false m' e')
  \/ binary_round prec emax false m e = S754_infinity false.
Proof.
  intros He. unfold binary_round, shl_align.
  set (e' := fexp prec emax (Z.pos (digits2_pos m) + e)).
  assert (He' : SpecFloat.emin prec emax <= e') by (unfold e', fexp; lia).
  destruct (e' - e); apply binary_round_aux_positive; lia.
Qed.

Lemma valid_finite_exponent (s : bool) (m : positive) (e : Z) :
  valid_binary (S754_finite s m e) = true -> SpecFloat.emin prec emax <= e.
Proof.
  cbn [valid_binary]. unfold bounded, canonical_mantissa. intros H.
  apply andb_prop in H. destruct H as [H _].
  apply Z.eqb_eq in H. unfold fexp in H. lia.
Qed.

Lemma SFadd_positive (x y : spec_float) :
  valid_binary x = true -> valid_binary y = true ->
  key_lt (0, 0, 0) (match sf_key x with Some a => a | None => (0, 0, 0) end) ->
  key_lt (0, 0, 0) (match sf_key y with Some a => a | None => (0, 0, 0) end) ->
  exists a, sf_key (SF64add x y) = Some a /\ key_lt (0, 0, 0) a.
Proof.
  intros Hvx Hvy Hx Hy.
  destruct x as [sx | sx | | sx mx ex]; try destruct sx; cbn in Hx; try lia;
    destruct y as [sy | sy | | sy my ey]; try destruct sy; cbn in Hy; try lia;
    try (eexists; split; [reflexivity | cbn; lia]).
  apply valid_finite_exponent in Hvx, Hvy.
  unfold SF64add, SFadd. cbn [cond_Zopp].
  set (ez := Z.min ex ey).
  destruct (binary_round_positive
              (fst (shl_align mx ex ez) + fst (shl_align my ey ez))%positive ez
              ltac:(unfold ez; lia)) as [(m' & e' & H) | H];
    rewrite <- Pos2Z.inj_add; unfold binary_normalize; rewrite H; eexists;
    (split; [reflexivity | cbn; lia]).
Qed.

Lemma positive_key (x : float) :
  (0 <? x)%float = true ->
  exists a, fkey x = Some a /\ key_lt (0, 0, 0) a.
Proof.
  intros H. apply double_ltb_iff in H.
  change (fkey 0%float) with (Some (0, 0, 0)) in H.
  destruct (fkey x) as [a|]; [|contradiction]. eauto.
Qed.

Lemma add_0_positive (w : float) :
  (0 <? w)%float = true -> (0 + w)%float = w.
Proof.
  intros H. destruct (positive_key w H) as (a & Ha & Hlt). unfold fkey in Ha.
  apply Prim2SF_inj. rewrite FloatAxioms.add_spec.
  change (Prim2SF 0%float) with (S754_zero false).
  destruct (Prim2SF w) as [s | s | | s m e]; try destruct s;
    cbn in Ha; try discriminate Ha; injection Ha as <-; cbn in Hlt;
    try lia; reflexivity.
Qed.

Lemma add_positive (x w : float) :
  (0 <? x)%float = true -> (0 <? w)%float = true -> (0 <? x + w)%float = true.
Proof.
  intros Hx Hw.
  destruct (positive_key x Hx) as (a & Ha & Hlta).
  destruct (positive_key w Hw) as (b & Hb & Hltb).
  unfold fkey in Ha, Hb.
  destruct (SFadd_positive (Prim2SF x) (Prim2SF w)
              (Prim2SF_valid x) (Prim2SF_valid w)) as (c & Hc & Hltc).
  - rewrite Ha. exact Hlta.
  - rewrite Hb. exact Hltb.
  - apply double_ltb_iff. unfold fkey at 2. rewrite FloatAxioms.add_spec, Hc.
    change (fkey 0%float) with (Some (0, 0, 0)). exact Hltc.
Qed.

(** ** Sorting routines that meet the contract of [std::sort] *)

#[global] Instance ranked_before_dec : RelDecision ranked_before.
Proof. intros a b. unfold ranked_before. apply _. Defined.

#[global] Instance ranked_before_total : Total ranked_before.
Proof.
  intros a b. unfold ranked_before, sortPercentage.
  destruct (percent a <? percent b)%float eqn:Hab; [right | left; reflexivity].
  float_order.
Qed.

Lemma ranked_before_trans (a b c : percentItem) :
  percent_is_number a -> percent_is_number b -> percent_is_number c ->
  ranked_before a b -> ranked_before b c -> ranked_before a c.
Proof.
  unfold percent_is_number, ranked_before, sortPercentage.
  intros Ha Hb Hc Hab Hbc. float_order.
Qed.

Lemma Sorted_StronglySorted_on {A : Type} (R : relation A) (P : A -> Prop)
    (l : list A) :
  (forall x y z, P x -> P y -> P z -> R x y -> R y z -> R x z) ->
  Forall P l -> Sorted R l -> StronglySorted R l.
Proof.
  intros Htrans. induction l as [|x l IH]; intros HP Hsorted; [constructor|].
  apply Forall_cons in HP. destruct HP as [Hx Hl].
  apply Sorted_inv in Hsorted. destruct Hsorted as [Hsorted Hhd].
  specialize (IH Hl Hsorted).
  constructor; [exact IH|].
  destruct Hhd as [|y l' Hxy]; [constructor|].
  apply Forall_cons in Hl. destruct Hl as [Hy Hl'].
  apply StronglySorted_inv in IH. destruct IH as [_ Hall].
  constructor; [exact Hxy|].
  rewrite Forall_forall in Hall, Hl'. apply Forall_forall. intros z Hz.
  apply (Htrans x y z); auto.
Qed.

Lemma merge_sort_sorted (v : list percentItem) :
  Forall percent_is_number v -> StronglySorted ranked_before (merge_sort ranked_before v).
Proof.
  intros Hv.
  apply (Sorted_StronglySorted_on ranked_before percent_is_number).
  - apply ranked_before_trans.
  - rewrite merge_sort_Permutation. exact Hv.
  - apply Sorted_merge_sort. apply _.
Qed.

(** The merge sort of stdpp. *)
Definition merge_sorter : StdSort :=
  mkStdSort (merge_sort ranked_before)
    (merge_sort_Permutation ranked_before)
    merge_sort_sorted.

Lemma merge_sort_reverse_Permutation (v : list percentItem) :
  merge_sort ranked_before (reverse v) ≡ₚ v.
Proof. rewrite merge_sort_Permutation. apply reverse_Permutation. Qed.

Lemma merge_sort_reverse_sorted (v : list percentItem) :
  Forall percent_is_number v ->
  StronglySorted ranked_before (merge_sort ranked_before (reverse v)).
Proof.
  intros Hv. apply merge_sort_sorted. rewrite reverse_Permutation. exact Hv.
Qed.

(** The same sort on the reversed vector: another routine within the
    contract. *)
Definition reverse_merge_sorter : StdSort :=
  mkStdSort (fun v => merge_sort ranked_before (reverse v))
    merge_sort_reverse_Permutation
    merge_sort_reverse_sorted.

(** ** Facts about loops and totals *)

Lemma for_loop_snoc {S : Type} (body : Z -> S -> S) (c : nat) :
  forall i s,
    for_loop i (Datatypes.S c) body s
    = body (i + Z.of_nat c) (for_loop i c body s).
Proof.
  induction c as [|c IH]; intros i s.
  - simpl. f_equal. lia.
  - change (for_loop i (Datatypes.S (Datatypes.S c)) body s)
      with (for_loop (i + 1) (Datatypes.S c) body (body i s)).
    rewrite IH. simpl for_loop. f_equal. lia.
Qed.

Lemma fold_left_push_back {A : Type} (v acc : list A) :
  fold_left push_back v acc = acc ++ v.
Proof.
  revert acc. induction v as [|x v IH]; intros acc; simpl.
  - symmetry. apply app_nil_r.
  - rewrite IH. unfold push_back. rewrite <- app_assoc. reflexivity.
Qed.

Lemma sum_food_vector_snoc (foods : FoodVector) (food : shared_ptr) :
  sum_food_vector (foods ++ [food])
  = ((total_weight_of foods + weight (target food))%float,
     (total_calories_of foods + foodCalories (target food))%float).
Proof. unfold sum_food_vector. rewrite fold_left_app. reflexivity. Qed.

Lemma total_weight_of_snoc (foods : FoodVector) (food : shared_ptr) :
  total_weight_of (foods ++ [food])
  = (total_weight_of foods + weight (target food))%float.
Proof. unfold total_weight_of at 1. rewrite sum_food_vector_snoc. reflexivity. Qed.

Lemma total_calories_of_snoc (foods : FoodVector) (food : shared_ptr) :
  total_calories_of (foods ++ [food])
  = (total_calories_of foods + foodCalories (target food))%float.
Proof. unfold total_calories_of at 1. rewrite sum_food_vector_snoc. reflexivity. Qed.

Lemma int_of_size_small (n : nat) :
  Z.of_nat n <= INT_MAX -> int_of_size n = Z.of_nat n.
Proof.
  intros Hn. unfold int_of_size.
  assert (Hmax : INT_MAX < 2 ^ INT_BITS) by (vm_compute; reflexivity).
  rewrite Z.mod_small by lia.
  destruct (Z.leb_spec (Z.of_nat n) INT_MAX); [reflexivity | lia].
Qed.

Lemma pow2_to_int_Some (n : nat) (p : Z) :
  pow2_to_int n = Some p <-> (n < 31)%nat /\ p = 2 ^ Z.of_nat n.
Proof.
  unfold pow2_to_int.
  assert (Hmax : INT_MAX = 2 ^ 31 - 1) by reflexivity.
  destruct (Z.leb_spec (2 ^ Z.of_nat n) INT_MAX) as [Hle | Hgt]; split.
  - intros [= <-]. split; [|reflexivity].
    destruct (Nat.lt_ge_cases n 31) as [Hn | Hn]; [exact Hn | exfalso].
    assert (2 ^ 31 <= 2 ^ Z.of_nat n) by (apply Z.pow_le_mono_r; lia). lia.
  - intros [_ ->]. reflexivity.
  - discriminate.
  - intros [Hn _]. exfalso.
    assert (2 ^ Z.of_nat n <= 2 ^ 30) by (apply Z.pow_le_mono_r; lia).
    assert (2 ^ 30 < 2 ^ 31) by (vm_compute; reflexivity). lia.
Qed.

Lemma pow2_to_int_None (n : nat) :
  pow2_to_int n = None <-> (31 <= n)%nat.
Proof.
  destruct (pow2_to_int n) as [p|] eqn:Hp; split; try discriminate; try reflexivity.
  - apply pow2_to_int_Some in Hp. lia.
  - intros _. destruct (Nat.lt_ge_cases n 31) as [Hn | Hn]; [|exact Hn].
    assert (Hs : pow2_to_int n = Some (2 ^ Z.of_nat n))
      by (apply pow2_to_int_Some; auto).
    congruence.
Qed.

(** * Rounded addition of doubles

    The sum of two doubles, read off [SFadd]: the exact sum of the scaled
    values, rounded to 53 digits, and from there that adding a positive
    double keeps the order. *)

(** ** Shifting a mantissa to the right *)

Lemma iter_pos_iter {A : Type} (f : A -> A) (p : positive) :
  forall x, SpecFloat.iter_pos f p x = Pos.iter f x p.
Proof.
  induction p as [p IH | p IH |]; intros x; cbn [SpecFloat.iter_pos Pos.iter].
  - rewrite !IH. rewrite <- !Pos.iter_swap. reflexivity.
  - rewrite !IH. reflexivity.
  - reflexivity.
Qed.

Lemma shr_1_nonneg (m : Z) (r s : bool) :
  0 <= m ->
  shr_1 (Build_shr_record m r s) = Build_shr_record (m / 2) (Z.odd m) (r || s).
Proof.
  intros Hm. destruct m as [|p|p]; [reflexivity | | lia].
  destruct p as [p | p |]; cbn [shr_1].
  - f_equal. apply (Z.div_unique _ _ _ 1); lia.
  - f_equal. apply (Z.div_unique _ _ _ 0); lia.
  - reflexivity.
Qed.

Lemma mod_pow2_succ (M n : Z) :
  0 <= n ->
  M mod 2 ^ (n + 1) = M mod 2 ^ n + (if Z.testbit M n then 2 ^ n else 0).
Proof.
  intros Hn.
  assert (Hpow : 0 < 2 ^ n) by (apply Z.pow_pos_nonneg; lia).
  assert (Hpow' : 2 ^ (n + 1) = 2 * 2 ^ n) by (rewrite Z.pow_add_r by lia; lia).
  assert (Hbit : Z.testbit M n = Z.odd (M / 2 ^ n))
    by (rewrite Z.testbit_odd, Z.shiftr_div_pow2 by lia; reflexivity).
  pose proof (Z.div_mod M (2 ^ n) ltac:(lia)) as HM.
  pose proof (Z.mod_pos_bound M (2 ^ n) Hpow) as Hb.
  set (q := M / 2 ^ n) in *. set (b := M mod 2 ^ n) in *.
  pose proof (Z.div_mod q 2 ltac:(lia)) as Hq.
  pose proof (Z.mod_pos_bound q 2 ltac:(lia)) as Hq2.
  assert (Hodd : Z.odd q = (q mod 2 =? 1)).
  { rewrite Zmod_odd. destruct (Z.odd q); reflexivity. }
  rewrite Hbit, Hodd, Hpow'.
  symmetry. apply (Z.mod_unique_pos _ _ (q / 2)).
  - destruct (Z.eqb_spec (q mod 2) 1); nia.
  - destruct (Z.eqb_spec (q mod 2) 1); nia.
Qed.

Lemma iter_shr_1 (M : Z) (p : positive) :
  0 <= M ->
  Pos.iter shr_1 (Build_shr_record M false false) p = shifted M (Z.pos p).
Proof.
  intros HM. induction p as [|p IH] using Pos.peano_ind.
  - cbn [Pos.iter]. rewrite shr_1_nonneg by exact HM. unfold shifted.
    change (1 - 1) with 0. change (2 ^ 1) with 2. change (2 ^ 0) with 1.
    rewrite Z.bit0_odd, Z.mod_1_r. reflexivity.
  - rewrite Pos.iter_succ, IH. unfold shifted.
    assert (Hpow : 0 < 2 ^ Z.pos p) by (apply Z.pow_pos_nonneg; lia).
    rewrite shr_1_nonneg by (apply Z.div_pos; lia).
    rewrite Pos2Z.inj_succ.
    replace (Z.succ (Z.pos p) - 1) with (Z.pos p) by lia.
    f_equal.
    + rewrite Z.div_div by lia.
      rewrite Z.pow_succ_r by lia. f_equal. lia.
    + rewrite Z.testbit_odd, Z.shiftr_div_pow2 by lia. reflexivity.
    + assert (Hmod : M mod 2 ^ Z.pos p
                     = M mod 2 ^ (Z.pos p - 1)
                       + (if Z.testbit M (Z.pos p - 1) then 2 ^ (Z.pos p - 1) else 0)).
      { replace (2 ^ Z.pos p) with (2 ^ (Z.pos p - 1 + 1)) by (f_equal; lia).
        apply mod_pow2_succ. lia. }
      rewrite Hmod.
      pose proof (Z.mod_pos_bound M (2 ^ (Z.pos p - 1))
                    ltac:(apply Z.pow_pos_nonneg; lia)) as Hb.
      assert (0 < 2 ^ (Z.pos p - 1)) by (apply Z.pow_pos_nonneg; lia).
      destruct (Z.testbit M (Z.pos p - 1));
        destruct (Z.eqb_spec (M mod 2 ^ (Z.pos p - 1)) 0);
        cbn [orb negb]; symmetry;
        try (apply Z.eqb_neq; lia); try (apply Z.eqb_eq; lia);
        try (apply negb_true_iff, Z.eqb_neq; lia);
        try (apply negb_false_iff, Z.eqb_eq; lia).
Qed.

(** ** Rounding to the nearest, ties to even *)

Lemma rne_0 (S : Z) : rne S 0 = S.
Proof.
  unfold rne. change (2 ^ 0) with 1. rewrite Z.mod_1_r, Z.div_1_r. reflexivity.
Qed.

Lemma rne_shifted (S : Z) (p : positive) :
  0 <= S ->
  round_nearest_even (shr_m (shifted S (Z.pos p)))
    (loc_of_shr_record (shifted S (Z.pos p)))
  = rne S (Z.pos p).
Proof.
  intros HS. unfold shifted, rne. cbn [shr_m loc_of_shr_record].
  assert (Hpow : 2 ^ Z.pos p = 2 * 2 ^ (Z.pos p - 1)).
  { replace (Z.pos p) with (Z.pos p - 1 + 1) at 1 by lia.
    rewrite Z.pow_add_r by lia. lia. }
  assert (Hmod : S mod 2 ^ Z.pos p
                 = S mod 2 ^ (Z.pos p - 1)
                   + (if Z.testbit S (Z.pos p - 1) then 2 ^ (Z.pos p - 1) else 0)).
  { replace (2 ^ Z.pos p) with (2 ^ (Z.pos p - 1 + 1)) by (f_equal; lia).
    apply mod_pow2_succ. lia. }
  rewrite Hmod. clear Hmod.
  generalize (S / 2 ^ Z.pos p). intros q.
  rewrite Hpow. clear Hpow.
  assert (Hp : 0 < 2 ^ (Z.pos p - 1)) by (apply Z.pow_pos_nonneg; lia).
  pose proof (Z.mod_pos_bound S (2 ^ (Z.pos p - 1)) Hp) as Hb.
  set (b := S mod 2 ^ (Z.pos p - 1)) in *.
  set (h := 2 ^ (Z.pos p - 1)) in *.
  destruct (Z.testbit S (Z.pos p - 1)); destruct (Z.eqb_spec b 0) as [Hb0 | Hb0];
    cbn [negb round_nearest_even].
  - (* the half *)
    destruct (Z.ltb_spec (2 * (b + h)) (2 * h)); [lia|].
    destruct (Z.ltb_spec (2 * h) (2 * (b + h))); [lia|]. reflexivity.
  - destruct (Z.ltb_spec (2 * (b + h)) (2 * h)); [lia|].
    destruct (Z.ltb_spec (2 * h) (2 * (b + h))); [reflexivity | lia].
  - destruct (Z.ltb_spec (2 * (b + 0)) (2 * h)); [reflexivity | lia].
  - destruct (Z.ltb_spec (2 * (b + 0)) (2 * h)); [reflexivity | lia].
Qed.

Lemma rne_bounds (S c : Z) :
  S / 2 ^ c <= rne S c <= S / 2 ^ c + 1.
Proof.
  unfold rne.
  destruct (_ <? _); [lia|]. destruct (_ <? _); [lia|].
  destruct (Z.even _); lia.
Qed.

Lemma rne_exact (m c : Z) : 0 <= c -> rne (m * 2 ^ c) c = m.
Proof.
  intros Hc. unfold rne.
  assert (Hp : 0 < 2 ^ c) by (apply Z.pow_pos_nonneg; lia).
  rewrite Z.mod_mul, Z.div_mul by lia.
  destruct (Z.ltb_spec (2 * 0) (2 ^ c)); [reflexivity | lia].
Qed.

Lemma rne_mono (S S' c : Z) :
  0 <= c -> S <= S' -> rne S c <= rne S' c.
Proof.
  intros Hc HS.
  assert (Hp : 0 < 2 ^ c) by (apply Z.pow_pos_nonneg; lia).
  assert (Hq : S / 2 ^ c <= S' / 2 ^ c) by (apply Z.div_le_mono; lia).
  destruct (Z.eq_dec (S / 2 ^ c) (S' / 2 ^ c)) as [Heq | Hne].
  - assert (Hr : S mod 2 ^ c <= S' mod 2 ^ c).
    { pose proof (Z.div_mod S (2 ^ c) ltac:(lia)).
      pose proof (Z.div_mod S' (2 ^ c) ltac:(lia)). nia. }
    unfold rne. rewrite <- Heq.
    destruct (Z.ltb_spec (2 * (S mod 2 ^ c)) (2 ^ c));
      destruct (Z.ltb_spec (2 * (S' mod 2 ^ c)) (2 ^ c)); try lia;
      destruct (Z.ltb_spec (2 ^ c) (2 * (S mod 2 ^ c)));
      destruct (Z.ltb_spec (2 ^ c) (2 * (S' mod 2 ^ c))); try lia;
      destruct (Z.even (S / 2 ^ c)); lia.
  - pose proof (rne_bounds S c). pose proof (rne_bounds S' c). lia.
Qed.

Lemma rne_scale (M c k : Z) :
  0 <= c -> 0 <= k -> rne (M * 2 ^ k) (c + k) = rne M c.
Proof.
  intros Hc Hk. unfold rne.
  assert (Hpc : 0 < 2 ^ c) by (apply Z.pow_pos_nonneg; lia).
  assert (Hpk : 0 < 2 ^ k) by (apply Z.pow_pos_nonneg; lia).
  rewrite Z.pow_add_r by lia.
  rewrite Z.div_mul_cancel_r by lia.
  rewrite Z.mul_mod_distr_r by lia.
  destruct (Z.ltb_spec (2 * (M mod 2 ^ c)) (2 ^ c));
    destruct (Z.ltb_spec (2 * (M mod 2 ^ c * 2 ^ k)) (2 ^ c * 2 ^ k)); try nia;
    try reflexivity.
  destruct (Z.ltb_spec (2 ^ c) (2 * (M mod 2 ^ c)));
    destruct (Z.ltb_spec (2 ^ c * 2 ^ k) (2 * (M mod 2 ^ c * 2 ^ k))); try nia;
    reflexivity.
Qed.

(** ** The number of binary digits *)

Lemma digits2_pos_upper (m : positive) :
  Z.pos m < 2 ^ Z.pos (digits2_pos m).
Proof.
  induction m as [m IH | m IH |]; cbn [digits2_pos].
  - rewrite Pos2Z.inj_succ, Z.pow_succ_r by lia. lia.
  - rewrite Pos2Z.inj_succ, Z.pow_succ_r by lia. lia.
  - cbn. lia.
Qed.

Lemma Zdigits2_bounds (S : Z) :
  0 < S -> 2 ^ (Zdigits2 S - 1) <= S < 2 ^ Zdigits2 S.
Proof.
  intros HS. destruct S as [|p|p]; try lia. cbn [Zdigits2].
  split; [apply digits2_pos_lower | apply digits2_pos_upper].
Qed.

Lemma Zdigits2_pos (S : Z) : 0 < S -> 0 < Zdigits2 S.
Proof. intros HS. destruct S as [|p|p]; try lia. cbn. lia. Qed.

Lemma Zdigits2_unique (S d : Z) :
  0 < S -> 2 ^ (d - 1) <= S < 2 ^ d -> Zdigits2 S = d.
Proof.
  intros HS [Hlo Hhi].
  destruct (Zdigits2_bounds S HS) as [Hlo' Hhi'].
  assert (Hd := Zdigits2_pos S HS).
  destruct (Z.lt_trichotomy (Zdigits2 S) d) as [Hlt | [Heq | Hgt]]; [|exact Heq|].
  - exfalso.
    assert (2 ^ Zdigits2 S <= 2 ^ (d - 1)) by (apply Z.pow_le_mono_r; lia). lia.
  - exfalso.
    assert (0 <= d).
    { destruct (Z.lt_ge_cases d 0) as [Hneg | Hnn]; [|exact Hnn].
      rewrite (Z.pow_neg_r 2 d Hneg) in Hhi. lia. }
    assert (2 ^ d <= 2 ^ (Zdigits2 S - 1)) by (apply Z.pow_le_mono_r; lia). lia.
Qed.

Lemma Zdigits2_mono (S S' : Z) :
  0 < S -> S <= S' -> Zdigits2 S <= Zdigits2 S'.
Proof.
  intros HS Hle.
  destruct (Zdigits2_bounds S HS) as [Hlo _].
  destruct (Zdigits2_bounds S' ltac:(lia)) as [_ Hhi].
  assert (Hd := Zdigits2_pos S HS).
  destruct (Z.le_gt_cases (Zdigits2 S) (Zdigits2 S')) as [H | H]; [exact H | exfalso].
  assert (2 ^ Zdigits2 S' <= 2 ^ (Zdigits2 S - 1))
    by (apply Z.pow_le_mono_r; lia).
  lia.
Qed.

Lemma Zdigits2_shift (S k : Z) :
  0 < S -> 0 <= k -> Zdigits2 (S * 2 ^ k) = Zdigits2 S + k.
Proof.
  intros HS Hk.
  assert (Hp : 0 < 2 ^ k) by (apply Z.pow_pos_nonneg; lia).
  destruct (Zdigits2_bounds S HS) as [Hlo Hhi].
  assert (Hd := Zdigits2_pos S HS).
  apply Zdigits2_unique; [nia|].
  replace (Zdigits2 S + k - 1) with (Zdigits2 S - 1 + k) by lia.
  rewrite !Z.pow_add_r by lia. nia.
Qed.

(** ** Rounding a scaled value to 53 digits *)

Lemma cexp_nonneg (S : Z) : 0 <= cexp S.
Proof. unfold cexp. lia. Qed.

Lemma cexp_mono (S S' : Z) : 0 < S -> S <= S' -> cexp S <= cexp S'.
Proof.
  intros HS Hle. unfold cexp.
  pose proof (Zdigits2_mono S S' HS Hle). lia.
Qed.

Lemma mant_bounds (S : Z) :
  0 < S -> 1 <= mant S <= 2 ^ prec /\ (0 < cexp S -> 2 ^ (prec - 1) <= mant S).
Proof.
  intros HS. unfold mant.
  destruct (Zdigits2_bounds S HS) as [Hlo Hhi].
  assert (Hd := Zdigits2_pos S HS).
  assert (Hc := cexp_nonneg S).
  assert (Hp : 0 < 2 ^ cexp S) by (apply Z.pow_pos_nonneg; lia).
  pose proof (rne_bounds S (cexp S)) as Hb.
  assert (Hprec : prec = 53) by reflexivity.
  assert (Hq1 : S / 2 ^ cexp S < 2 ^ prec).
  { apply Z.div_lt_upper_bound; [lia|].
    rewrite <- Z.pow_add_r by lia.
    eapply Z.lt_le_trans; [exact Hhi|].
    apply Z.pow_le_mono_r; unfold cexp; lia. }
  assert (Hq2 : 1 <= S / 2 ^ cexp S).
  { apply Z.div_le_lower_bound; [lia|].
    eapply Z.le_trans; [|exact Hlo].
    rewrite Z.mul_1_r. apply Z.pow_le_mono_r; unfold cexp; lia. }
  split; [lia|].
  intros Hpos.
  assert (Hq3 : 2 ^ (prec - 1) <= S / 2 ^ cexp S).
  { apply Z.div_le_lower_bound; [lia|].
    rewrite Z.mul_comm, <- Z.pow_add_r by lia.
    eapply Z.le_trans; [|exact Hlo].
    apply Z.pow_le_mono_r; unfold cexp in *; lia. }
  lia.
Qed.

Lemma round53_mono (S S' : Z) :
  0 < S -> S <= S' -> round53 S <= round53 S'.
Proof.
  intros HS Hle. unfold round53.
  assert (Hc := cexp_mono S S' HS Hle).
  assert (Hc0 := cexp_nonneg S).
  destruct (mant_bounds S HS) as [[_ Hup] _].
  destruct (mant_bounds S' ltac:(lia)) as [_ Hlow].
  destruct (Z.eq_dec (cexp S) (cexp S')) as [Heq | Hne].
  - unfold mant. rewrite <- Heq.
    apply Z.mul_le_mono_nonneg_r; [apply Z.pow_nonneg; lia|].
    apply rne_mono; assumption.
  - specialize (Hlow ltac:(lia)).
    assert (Hprec : prec = 53) by reflexivity.
    assert (Hp : 0 < 2 ^ cexp S) by (apply Z.pow_pos_nonneg; lia).
    assert (Hp' : 0 < 2 ^ cexp S') by (apply Z.pow_pos_nonneg; lia).
    apply Z.le_trans with (2 ^ prec * 2 ^ cexp S); [nia|].
    apply Z.le_trans with (2 ^ (prec - 1) * 2 ^ cexp S'); [|nia].
    rewrite <- !Z.pow_add_r by lia.
    apply Z.pow_le_mono_r; lia.
Qed.

Lemma expo_mono (S S' : Z) :
  0 < S -> S <= S' -> expo S <= expo S'.
Proof.
  intros HS Hle. unfold expo.
  assert (Hc := cexp_mono S S' HS Hle).
  destruct (Z.eq_dec (cexp S) (cexp S')) as [Heq | Hne].
  - destruct (mant_bounds S' ltac:(lia)) as [[_ Hup] _].
    assert (Hm : mant S <= mant S').
    { unfold mant. rewrite <- Heq. apply rne_mono; [apply cexp_nonneg | exact Hle]. }
    destruct (Z.eqb_spec (mant S) (2 ^ prec));
      destruct (Z.eqb_spec (mant S') (2 ^ prec)); lia.
  - destruct (Z.eqb_spec (mant S) (2 ^ prec));
      destruct (Z.eqb_spec (mant S') (2 ^ prec)); lia.
Qed.

Lemma round53_expo (S : Z) :
  0 < S ->
  exists m, 0 < m < 2 ^ prec /\ round53 S = m * 2 ^ expo S
            /\ (m = mant S /\ expo S = cexp S
                \/ mant S = 2 ^ prec /\ m = 2 ^ (prec - 1) /\ expo S = cexp S + 1).
Proof.
  intros HS. unfold round53, expo.
  destruct (mant_bounds S HS) as [[Hlo Hup] _].
  assert (Hc := cexp_nonneg S).
  destruct (Z.eqb_spec (mant S) (2 ^ prec)) as [Heq | Hne].
  - exists (2 ^ (prec - 1)). split; [split; vm_compute; reflexivity|].
    split; [|right; repeat split; auto].
    rewrite Heq, Z.pow_add_r by lia.
    change (2 ^ prec) with (2 ^ (prec - 1) * 2). change (2 ^ 1) with 2. lia.
  - exists (mant S). split; [lia|]. split; [|left; split; [reflexivity | lia]].
    rewrite Z.add_0_r. reflexivity.
Qed.

Lemma Round_mono (S S' : Z) :
  0 < S -> S <= S' -> Round S <= Round S'.
Proof.
  intros HS Hle. unfold Round.
  assert (He := expo_mono S S' HS Hle).
  destruct (Z.leb_spec (SpecFloat.emin prec emax + expo S) (emax - prec)) as [H1 | H1];
    destruct (Z.leb_spec (SpecFloat.emin prec emax + expo S') (emax - prec)) as [H2 | H2];
    try lia.
  - apply round53_mono; assumption.
  - destruct (round53_expo S HS) as (m & Hm & -> & _).
    unfold INF.
    assert (Hexp : 0 <= expo S) by (unfold expo; pose proof (cexp_nonneg S);
                                     destruct (_ =? _); lia).
    apply Z.le_trans with (2 ^ prec * 2 ^ expo S).
    + apply Z.mul_le_mono_nonneg_r; [apply Z.pow_nonneg; lia | lia].
    + rewrite <- Z.pow_add_r by (try lia; discriminate).
      apply Z.pow_le_mono_r; [lia|].
      change (SpecFloat.emin prec emax) with (-1074) in *.
      change emax with 1024 in *. change prec with 53 in *. lia.
Qed.

Lemma Round_le_INF (S : Z) : 0 < S -> Round S <= INF.
Proof.
  intros HS. unfold Round.
  destruct (Z.leb_spec (SpecFloat.emin prec emax + expo S) (emax - prec)) as [H1 | H1];
    [|lia].
  destruct (round53_expo S HS) as (m & Hm & -> & _).
  unfold INF.
  assert (Hexp : 0 <= expo S) by (unfold expo; pose proof (cexp_nonneg S);
                                   destruct (_ =? _); lia).
  apply Z.le_trans with (2 ^ prec * 2 ^ expo S).
  - apply Z.mul_le_mono_nonneg_r; [apply Z.pow_nonneg; lia | lia].
  - rewrite <- Z.pow_add_r by (try lia; discriminate).
    apply Z.pow_le_mono_r; [lia|].
    change (SpecFloat.emin prec emax) with (-1074) in *.
    change emax with 1024 in *. change prec with 53 in *. lia.
Qed.

(** ** What [binary_round] computes *)

Lemma shr_spec (M E n : Z) :
  0 <= M -> 0 <= n ->
  let r := shr (Build_shr_record M false false) E n in
  snd r = E + n
  /\ shr_m (fst r) = M / 2 ^ n
  /\ round_nearest_even (shr_m (fst r)) (loc_of_shr_record (fst r)) = rne M n.
Proof.
  intros HM Hn. destruct n as [|p|p]; [| |lia]; cbn [shr fst snd].
  - change (2 ^ 0) with 1. rewrite Z.div_1_r, rne_0. cbn. repeat split. lia.
  - rewrite iter_pos_iter, iter_shr_1 by exact HM.
    split; [reflexivity|]. split; [reflexivity|].
    apply rne_shifted, HM.
Qed.

Lemma iter_xO (m d : positive) :
  Z.pos (Pos.iter xO m d) = Z.pos m * 2 ^ Z.pos d.
Proof.
  induction d as [|d IH] using Pos.peano_ind.
  - cbn [Pos.iter]. change (2 ^ 1) with 2. lia.
  - rewrite Pos.iter_succ, Pos2Z.inj_xO, IH, Pos2Z.inj_succ, Z.pow_succ_r by lia.
    lia.
Qed.

Lemma shl_align_spec (m : positive) (e f : Z) :
  let r := shl_align m e f in
  snd r = Z.min e f /\ Z.pos (fst r) = Z.pos m * 2 ^ (e - snd r).
Proof.
  unfold shl_align. destruct (f - e) as [|d|d] eqn:Hd; cbn [fst snd].
  - split; [lia|]. replace (e - e) with 0 by lia. change (2 ^ 0) with 1. lia.
  - split; [lia|]. replace (e - e) with 0 by lia. change (2 ^ 0) with 1. lia.
  - split; [lia|]. rewrite iter_xO. f_equal. f_equal. lia.
Qed.

Lemma scaled_pos (m : positive) (e : Z) :
  SpecFloat.emin prec emax <= e -> 0 < scaled m e.
Proof.
  intros He. unfold scaled.
  assert (0 < 2 ^ (e - SpecFloat.emin prec emax)) by (apply Z.pow_pos_nonneg; lia).
  nia.
Qed.

Lemma cexp_scaled (m : positive) (e : Z) :
  SpecFloat.emin prec emax <= e ->
  cexp (scaled m e)
  = fexp prec emax (Z.pos (digits2_pos m) + e) - SpecFloat.emin prec emax.
Proof.
  intros He. unfold cexp, scaled, fexp.
  rewrite Zdigits2_shift by lia. cbn [Zdigits2]. lia.
Qed.

Lemma binary_round_aux_spec (M : positive) (E : Z) :
  SpecFloat.emin prec emax <= E ->
  E <= fexp prec emax (Z.pos (digits2_pos M) + E) ->
  rounds_to (scaled M E)
    (binary_round_aux prec emax false (Z.pos M) E loc_Exact).
Proof.
  intros HE Hf.
  set (emin := SpecFloat.emin prec emax) in *.
  set (S := scaled M E).
  assert (HS : 0 < S) by (apply scaled_pos; exact HE).
  set (f := fexp prec emax (Z.pos (digits2_pos M) + E)) in *.
  assert (Hfmin : emin <= f) by (unfold f, fexp; fold emin; lia).
  assert (Hc : cexp S = f - emin) by (apply cexp_scaled; exact HE).
  assert (Hmant : mant S = rne (Z.pos M) (f - E)).
  { unfold mant. rewrite Hc. unfold S, scaled. fold emin.
    replace (f - emin) with (f - E + (E - emin)) by lia.
    apply rne_scale; lia. }
  destruct (mant_bounds S HS) as [[Hm1 Hm2] _].
  unfold binary_round_aux, shr_fexp. cbn [Zdigits2 shr_record_of_loc]. fold f.
  destruct (shr_spec (Z.pos M) E (f - E) ltac:(lia) ltac:(lia)) as (He' & _ & Hrne).
  destruct (shr (Build_shr_record (Z.pos M) false false) E (f - E)) as [mrs' e'].
  cbn [fst snd] in He', Hrne.
  rewrite Hrne, <- Hmant. clear Hrne.
  replace e' with f by lia. clear He' e' mrs'.
  assert (Hprec : prec = 53) by reflexivity.
  unfold rounds_to, expo, round53. rewrite Hc. fold emin.
  destruct (Z.eqb_spec (mant S) (2 ^ prec)) as [Heq | Hne].
  - (* the mantissa has one digit too many *)
    rewrite Heq.
    change (Zdigits2 (2 ^ prec)) with 54.
    assert (Hn2 : fexp prec emax (54 + f) - f = 1) by (unfold fexp; fold emin; lia).
    rewrite Hn2. cbn [shr shr_record_of_loc SpecFloat.iter_pos shr_1 shr_m].
    change (2 ^ prec) with 9007199254740992.
    cbn [shr_1 shr_m].
    replace (emin + (f - emin + 1)) with (f + 1) by lia.
    destruct (Z.leb_spec (f + 1) (emax - prec)) as [Hle | Hgt].
    + left. split; [exact Hle|]. eexists. split; [reflexivity|].
      rewrite (Z.pow_add_r 2 (f - emin) 1) by lia. change (2 ^ 1) with 2. lia.
    + right. split; [exact Hgt | reflexivity].
  - (* the mantissa fits *)
    assert (Hlt : mant S < 2 ^ prec) by lia.
    destruct (mant S) as [|p|p] eqn:Hp; try lia.
    assert (Hd : Zdigits2 (Z.pos p) <= prec).
    { destruct (Zdigits2_bounds (Z.pos p) ltac:(lia)) as [Hlo _].
      destruct (Z.le_gt_cases (Zdigits2 (Z.pos p)) prec) as [H | H];
        [exact H | exfalso].
      assert (2 ^ prec <= 2 ^ (Zdigits2 (Z.pos p) - 1))
        by (apply Z.pow_le_mono_r; lia).
      lia. }
    assert (Hn2 : fexp prec emax (Zdigits2 (Z.pos p) + f) - f <= 0)
      by (unfold fexp; fold emin; lia).
    destruct (fexp prec emax (Zdigits2 (Z.pos p) + f) - f) as [|n2|n2]; try lia;
      cbn [shr shr_record_of_loc shr_m];
      replace (emin + (f - emin + 0)) with f by lia;
      (destruct (Z.leb_spec f (emax - prec)) as [Hle | Hgt];
       [left; split; [exact Hle|]; eexists; split; [reflexivity|];
        rewrite Z.add_0_r; reflexivity
       | right; split; [exact Hgt | reflexivity]]).
Qed.

Lemma binary_round_spec (m : positive) (e : Z) :
  SpecFloat.emin prec emax <= e ->
  rounds_to (scaled m e) (binary_round prec emax false m e).
Proof.
  intros He. unfold binary_round.
  set (f := fexp prec emax (Z.pos (digits2_pos m) + e)).
  destruct (shl_align_spec m e f) as [Hez Hmz].
  destruct (shl_align m e f) as [mz ez]. cbn [fst snd] in Hez, Hmz.
  assert (Hfmin : SpecFloat.emin prec emax <= f) by (unfold f, fexp; lia).
  assert (Hscaled : scaled mz ez = scaled m e).
  { unfold scaled. rewrite Hmz, <- Z.mul_assoc, <- Z.pow_add_r by lia.
    f_equal. f_equal. lia. }
  assert (Hdig : Z.pos (digits2_pos mz) + ez = Z.pos (digits2_pos m) + e).
  { change (Z.pos (digits2_pos mz)) with (Zdigits2 (Z.pos mz)).
    rewrite Hmz, Zdigits2_shift by lia. cbn [Zdigits2]. lia. }
  rewrite <- Hscaled.
  apply binary_round_aux_spec; [lia|].
  rewrite Hdig. fold f. lia.
Qed.

(** ** Doubles that are zero or more, by their scaled values *)

Lemma valid_finite_bounds (s : bool) (m : positive) (e : Z) :
  valid_binary (S754_finite s m e) = true ->
  SpecFloat.emin prec emax <= e <= emax - prec
  /\ Z.pos m < 2 ^ prec
  /\ (SpecFloat.emin prec emax < e -> 2 ^ (prec - 1) <= Z.pos m)
  /\ fexp prec emax (Z.pos (digits2_pos m) + e) = e.
Proof.
  cbn [valid_binary]. unfold bounded, canonical_mantissa. intros H.
  apply andb_prop in H. destruct H as [Hc Hb].
  apply Z.eqb_eq in Hc. apply Z.leb_le in Hb.
  assert (Hlo := digits2_pos_lower m). assert (Hup := digits2_pos_upper m).
  assert (Hprec : prec = 53) by reflexivity.
  unfold fexp in Hc.
  split; [lia|]. split; [|split].
  - eapply Z.lt_le_trans; [exact Hup|]. apply Z.pow_le_mono_r; lia.
  - intros He. eapply Z.le_trans; [|exact Hlo]. apply Z.pow_le_mono_r; lia.
  - unfold fexp. exact Hc.
Qed.

Lemma INF_pos : 0 < INF.
Proof. reflexivity. Qed.

Lemma scaled_lt_INF (s : bool) (m : positive) (e : Z) :
  valid_binary (S754_finite s m e) = true -> 0 < scaled m e < INF.
Proof.
  intros Hv. destruct (valid_finite_bounds s m e Hv) as ([He1 He2] & Hm & _).
  split; [apply scaled_pos; exact He1|].
  unfold scaled, INF.
  set (emin := SpecFloat.emin prec emax) in *.
  assert (Hp : 0 < 2 ^ (e - emin)) by (apply Z.pow_pos_nonneg; lia).
  apply Z.lt_le_trans with (2 ^ prec * 2 ^ (e - emin)); [nia|].
  rewrite <- Z.pow_add_r by (try lia; discriminate).
  apply Z.pow_le_mono_r; lia.
Qed.

Lemma nv_nonneg (x : spec_float) : valid_binary x = true -> 0 <= nv x <= INF.
Proof.
  intros Hv. destruct x as [s | s | | s m e]; try destruct s; cbn [nv];
    try (pose proof INF_pos; lia).
  pose proof (scaled_lt_INF false m e Hv). lia.
Qed.

Lemma Round_exact (m : positive) (e : Z) :
  valid_binary (S754_finite false m e) = true ->
  Round (scaled m e) = scaled m e.
Proof.
  intros Hv. destruct (valid_finite_bounds false m e Hv) as ([He1 He2] & Hm & _ & Hf).
  set (emin := SpecFloat.emin prec emax) in *.
  assert (Hc : cexp (scaled m e) = e - emin).
  { rewrite cexp_scaled by exact He1. rewrite Hf. reflexivity. }
  assert (Hmant : mant (scaled m e) = Z.pos m).
  { unfold mant. rewrite Hc. unfold scaled. fold emin. apply rne_exact. lia. }
  unfold Round, expo, round53. rewrite Hmant, Hc. fold emin.
  destruct (Z.eqb_spec (Z.pos m) (2 ^ prec)); [lia|].
  destruct (Z.leb_spec (emin + (e - emin + 0)) (emax - prec)); [reflexivity | lia].
Qed.

Lemma Round_ge_INF (S : Z) : INF <= S -> Round S = INF.
Proof.
  intros HS. unfold Round.
  assert (Hd : Zdigits2 INF <= Zdigits2 S)
    by (apply Zdigits2_mono; [reflexivity | exact HS]).
  assert (HdI : Zdigits2 INF = 2099) by (vm_compute; reflexivity).
  assert (Hc : 2046 <= cexp S) by (unfold cexp; change prec with 53; lia).
  assert (He : 2046 <= expo S) by (unfold expo; destruct (_ =? _); lia).
  destruct (Z.leb_spec (SpecFloat.emin prec emax + expo S) (emax - prec)) as [H | H];
    [|reflexivity].
  change (SpecFloat.emin prec emax) with (-1074) in H.
  change emax with 1024 in H. change prec with 53 in H. lia.
Qed.

Lemma Round_pos (S : Z) : 0 < S -> 0 < Round S.
Proof.
  intros HS. unfold Round. destruct (_ <=? _); [|apply INF_pos].
  unfold round53. destruct (mant_bounds S HS) as [[Hm _] _].
  assert (0 < 2 ^ cexp S) by (apply Z.pow_pos_nonneg; [lia | apply cexp_nonneg]).
  nia.
Qed.

Lemma nv_fixed (x : spec_float) :
  valid_binary x = true -> nonneg x -> 0 < nv x -> Round (nv x) = nv x.
Proof.
  intros Hv Hn Hpos.
  destruct x as [s | s | | s m e]; try destruct s; cbn [nv nonneg] in *;
    try lia; try contradiction.
  - apply Round_ge_INF. lia.
  - apply Round_exact, Hv.
Qed.

Lemma rounds_to_nv (S : Z) (x : spec_float) :
  0 < S -> rounds_to S x -> nv x = Round S /\ nonneg x.
Proof.
  intros HS [(He & m & -> & Hm) | (He & ->)]; unfold Round.
  - destruct (Z.leb_spec (SpecFloat.emin prec emax + expo S) (emax - prec));
      [|lia].
    cbn [nv nonneg]. split; [|exact I].
    unfold scaled. rewrite <- Hm. f_equal. f_equal. lia.
  - destruct (Z.leb_spec (SpecFloat.emin prec emax + expo S) (emax - prec));
      [lia|].
    cbn [nv nonneg]. auto.
Qed.

(** The sum of a double that is zero or more and a positive one. *)
Lemma SFadd_nv (x w : spec_float) :
  valid_binary x = true -> valid_binary w = true ->
  nonneg x -> nonneg w -> 0 < nv w ->
  nv (SF64add x w) = Round (nv x + nv w) /\ nonneg (SF64add x w).
Proof.
  intros Hvx Hvw Hnx Hnw Hw.
  assert (HINF := INF_pos).
  destruct w as [sw | sw | | sw mw ew]; try destruct sw; cbn [nv nonneg] in Hw, Hnw;
    try lia; try contradiction.
  - (* the second is the infinity *)
    assert (Hx := nv_nonneg x Hvx).
    destruct x as [sx | sx | | sx mx ex]; try destruct sx; cbn [nonneg] in Hnx;
      try contradiction; cbn [SF64add SFadd nv nonneg];
      (split; [symmetry; apply Round_ge_INF; cbn [nv] in Hx; lia | exact I]).
  - (* the second is finite *)
    assert (Hsw := scaled_lt_INF false mw ew Hvw).
    destruct x as [sx | sx | | sx mx ex]; try destruct sx; cbn [nonneg] in Hnx;
      try contradiction; cbn [SF64add SFadd nv nonneg].
    + split; [|exact I]. rewrite Z.add_0_l. symmetry. apply Round_exact, Hvw.
    + split; [|exact I]. rewrite Z.add_0_l. symmetry. apply Round_exact, Hvw.
    + split; [|exact I]. symmetry. apply Round_ge_INF. lia.
    + assert (Hsx := scaled_lt_INF false mx ex Hvx).
      destruct (valid_finite_bounds false mx ex Hvx) as ([Hex _] & _).
      destruct (valid_finite_bounds false mw ew Hvw) as ([Hew _] & _).
      set (ez := Z.min ex ew).
      destruct (shl_align_spec mx ex ez) as [Hx1 Hx2].
      destruct (shl_align_spec mw ew ez) as [Hw1 Hw2].
      cbn [cond_Zopp].
      rewrite <- Pos2Z.inj_add. unfold binary_normalize.
      set (M := (fst (shl_align mx ex ez) + fst (shl_align mw ew ez))%positive).
      assert (Hsum : scaled M ez = scaled mx ex + scaled mw ew).
      { unfold scaled, M. rewrite Pos2Z.inj_add, Hx2, Hw2, Hx1, Hw1.
        set (emin := SpecFloat.emin prec emax) in *.
        replace (Z.min ex ez) with ez by (unfold ez; lia).
        replace (Z.min ew ez) with ez by (unfold ez; lia).
        rewrite Z.mul_add_distr_r, <- !Z.mul_assoc, <- !Z.pow_add_r
          by (unfold ez; lia).
        f_equal; f_equal; f_equal; lia. }
      rewrite <- Hsum.
      apply rounds_to_nv; [rewrite Hsum; lia|].
      apply binary_round_spec. unfold ez. lia.
Qed.

(** ** The order of the doubles and their scaled values *)

Lemma nonneg_key (x : spec_float) (k : Z * Z * Z) :
  sf_key x = Some k -> key_lt (0, 0, 0) k \/ key_eq (0, 0, 0) k -> nonneg x.
Proof.
  destruct x as [s | s | | s m e]; try destruct s; cbn [sf_key nonneg];
    intros [= <-]; cbn; try tauto; lia.
Qed.

Lemma key_nv (x y : spec_float) (a b : Z * Z * Z) :
  valid_binary x = true -> valid_binary y = true ->
  nonneg x -> nonneg y ->
  sf_key x = Some a -> sf_key y = Some b ->
  (key_lt a b -> nv x < nv y) /\ (key_eq a b -> nv x = nv y).
Proof.
  intros Hvx Hvy Hnx Hny Ha Hb.
  assert (HINF := INF_pos).
  destruct x as [sx | sx | | sx mx ex]; try destruct sx; cbn [nonneg] in Hnx;
    try contradiction; cbn [sf_key] in Ha; injection Ha as <-;
    destruct y as [sy | sy | | sy my ey]; try destruct sy; cbn [nonneg] in Hny;
    try contradiction; cbn [sf_key] in Hb; injection Hb as <-;
    cbn [nv key_lt key_eq];
    try (pose proof (scaled_lt_INF false mx ex Hvx));
    try (pose proof (scaled_lt_INF false my ey Hvy));
    try (split; intros; lia).
  (* two finite doubles *)
  destruct (valid_finite_bounds false mx ex Hvx) as ([Hex _] & Hmx & _).
  destruct (valid_finite_bounds false my ey Hvy) as ([Hey _] & _ & Hmy & _).
  set (emin := SpecFloat.emin prec emax) in *.
  unfold scaled. fold emin.
  assert (Hpx : 0 < 2 ^ (ex - emin)) by (apply Z.pow_pos_nonneg; lia).
  split.
  - intros [Hlt | [_ [Hlt | [-> Hlt]]]]; [lia | | nia].
    specialize (Hmy ltac:(lia)).
    assert (Hpy : 0 < 2 ^ (ey - emin)) by (apply Z.pow_pos_nonneg; lia).
    apply Z.lt_le_trans with (2 ^ prec * 2 ^ (ex - emin)); [nia|].
    apply Z.le_trans with (2 ^ (prec - 1) * 2 ^ (ey - emin)); [|nia].
    rewrite <- !Z.pow_add_r by (try lia; discriminate).
    apply Z.pow_le_mono_r; [lia|]. change prec with 53. lia.
  - intros (_ & -> & Hm). injection Hm as ->. reflexivity.
Qed.

Lemma double_leb_nv (x y : float) :
  nonneg (Prim2SF x) -> nonneg (Prim2SF y) ->
  (x <=? y)%float = true <-> nv (Prim2SF x) <= nv (Prim2SF y).
Proof.
  intros Hnx Hny. rewrite double_leb_iff. unfold fkey.
  assert (Hvx := Prim2SF_valid x). assert (Hvy := Prim2SF_valid y).
  destruct (sf_key (Prim2SF x)) as [a|] eqn:Ha;
    [|apply sf_key_None in Ha; rewrite Ha in Hnx; contradiction].
  destruct (sf_key (Prim2SF y)) as [b|] eqn:Hb;
    [|apply sf_key_None in Hb; rewrite Hb in Hny; contradiction].
  cbn [okey_le].
  destruct (key_nv _ _ a b Hvx Hvy Hnx Hny Ha Hb) as [Hlt Heq].
  destruct (key_nv _ _ b a Hvy Hvx Hny Hnx Hb Ha) as [Hgt _].
  assert (Htri : key_lt a b \/ key_eq a b \/ key_lt b a).
  { destruct a as [[a1 a2] a3], b as [[b1 b2] b3]. cbn. lia. }
  split.
  - intros [H | H]; [apply Hlt in H | apply Heq in H]; lia.
  - intros Hle. destruct Htri as [H | [H | H]]; [left; exact H | right; exact H|].
    apply Hgt in H. lia.
Qed.

Lemma double_nonneg (x : float) :
  (0 <=? x)%float = true -> nonneg (Prim2SF x).
Proof.
  intros H. apply double_leb_iff in H.
  change (fkey 0%float) with (Some (0, 0, 0)) in H. unfold fkey in H.
  destruct (sf_key (Prim2SF x)) as [k|] eqn:Hk; [|contradiction].
  exact (nonneg_key _ k Hk H).
Qed.

Lemma double_positive_nv (w : float) :
  (0 <? w)%float = true -> nonneg (Prim2SF w) /\ 0 < nv (Prim2SF w).
Proof.
  intros H. apply double_ltb_iff in H.
  change (fkey 0%float) with (Some (0, 0, 0)) in H. unfold fkey in H.
  assert (Hv := Prim2SF_valid w).
  destruct (Prim2SF w) as [s | s | | s m e]; try destruct s; cbn in H; try lia.
  - split; [exact I | apply INF_pos].
  - split; [exact I|]. apply (scaled_lt_INF false m e Hv).
Qed.

(** ** Adding a positive double is monotone *)

Lemma double_add_nv (x w : float) :
  (0 <=? x)%float = true -> (0 <? w)%float = true ->
  nv (Prim2SF (x + w)) = Round (nv (Prim2SF x) + nv (Prim2SF w))
  /\ nonneg (Prim2SF (x + w)).
Proof.
  intros Hx Hw. rewrite FloatAxioms.add_spec.
  destruct (double_positive_nv w Hw) as [Hnw Hpw].
  apply SFadd_nv; auto using Prim2SF_valid, double_nonneg.
Qed.

Lemma double_add_mono (x y w : float) :
  (0 <=? x)%float = true -> (x <=? y)%float = true -> (0 <? w)%float = true ->
  (x + w <=? y + w)%float = true.
Proof.
  intros Hx Hxy Hw.
  assert (Hy : (0 <=? y)%float = true) by exact (double_leb_trans _ _ _ Hx Hxy).
  destruct (double_add_nv x w Hx Hw) as [Hsx Hnx].
  destruct (double_add_nv y w Hy Hw) as [Hsy Hny].
  destruct (double_positive_nv w Hw) as [_ Hpw].
  apply double_leb_nv; [assumption..|].
  rewrite Hsx, Hsy.
  apply double_leb_nv in Hxy; [|apply double_nonneg; assumption..].
  pose proof (nv_nonneg (Prim2SF x) (Prim2SF_valid x)).
  apply Round_mono; lia.
Qed.

Lemma double_add_grows (x w : float) :
  (0 <=? x)%float = true -> (0 <? w)%float = true ->
  (x <=? x + w)%float = true.
Proof.
  intros Hx Hw.
  destruct (double_add_nv x w Hx Hw) as [Hs Hn].
  destruct (double_positive_nv w Hw) as [_ Hpw].
  assert (Hnx := double_nonneg x Hx).
  apply double_leb_nv; [assumption..|].
  rewrite Hs.
  pose proof (nv_nonneg (Prim2SF x) (Prim2SF_valid x)) as Hb.
  destruct (Z.eq_dec (nv (Prim2SF x)) 0) as [H0 | H0].
  - rewrite H0, Z.add_0_l. pose proof (Round_pos _ Hpw). lia.
  - rewrite <- (nv_fixed (Prim2SF x) (Prim2SF_valid x) Hnx ltac:(lia)) at 1.
    apply Round_mono; lia.
Qed.

(** ** Analysis of the exhaustive search *)

Lemma exhaustive_inner_rounds (foods : FoodVector) (W : float) (bit : Z)
    (b : FoodVector) (c : float) (k : nat) :
  for_loop 0 k (exhaustive_inner foods W bit) (mkSearch b c [] 0%float 0%float)
  = let best := prefix_checks foods W bit k (b, c) in
    mkSearch (fst best) (snd best) (select foods bit k)
      (total_weight_of (select foods bit k))
      (total_calories_of (select foods bit k)).
Proof.
  induction k as [|k IH]; [reflexivity|].
  rewrite for_loop_snoc, IH. clear IH.
  cbn zeta. rewrite Z.add_0_l.
  unfold exhaustive_inner. rewrite Nat2Z.id.
  cbn [prefix_checks select].
  set (best := prefix_checks foods W bit k (b, c)).
  set (cand := select foods bit k).
  unfold consider.
  destruct (bit_set bit (Z.of_nat k)); [destruct (foods !! k) as [food|]|];
    try change (option_list (Some food)) with [food];
    try change (@option_list shared_ptr None) with (@nil shared_ptr);
    cbn [BestFoodVector bestTotalCalries CandidateFoodVector
         candTotalWeight candTotalCalories push_back];
    rewrite ?app_nil_r, ?total_weight_of_snoc, ?total_calories_of_snoc;
    match goal with
    | |- context [(?w <=? W)%float] => destruct (w <=? W)%float
    end;
    try reflexivity;
    match goal with
    | |- context [(snd best <? ?x)%float] => destruct (snd best <? x)%float
    end;
    cbn [fst snd]; rewrite ?fold_left_push_back; reflexivity.
Qed.

Lemma bit_set_testbit (bit j : Z) :
  0 <= j -> bit_set bit j = Z.testbit bit j.
Proof.
  intros Hj. unfold bit_set.
  change 1 with (Z.ones 1) at 1.
  rewrite Z.land_ones by lia.
  change (2 ^ 1) with 2.
  rewrite <- Z.bit0_mod, Z.shiftr_spec by lia.
  rewrite Z.add_0_l.
  destruct (Z.testbit bit j); reflexivity.
Qed.

Lemma select_ext (foods : FoodVector) (m m' : Z) (k : nat) :
  (forall j, 0 <= j < Z.of_nat k -> Z.testbit m j = Z.testbit m' j) ->
  select foods m k = select foods m' k.
Proof.
  induction k as [|k IH]; intros Hbits; [reflexivity|].
  cbn [select]. rewrite IH by (intros j Hj; apply Hbits; lia).
  rewrite !bit_set_testbit by lia.
  rewrite (Hbits (Z.of_nat k)) by lia. reflexivity.
Qed.

Lemma select_beyond (foods : FoodVector) (m : Z) (k n : nat) :
  (k <= n)%nat ->
  (forall j, Z.of_nat k <= j < Z.of_nat n -> Z.testbit m j = false) ->
  select foods m n = select foods m k.
Proof.
  intros Hkn. induction Hkn as [|n Hkn IH]; intros Hbits; [reflexivity|].
  cbn [select]. rewrite IH by (intros j Hj; apply Hbits; lia).
  rewrite bit_set_testbit by lia.
  rewrite (Hbits (Z.of_nat n)) by lia. apply app_nil_r.
Qed.

Lemma select_prefix_subset (foods : FoodVector) (bit : Z) (k : nat) :
  (k <= length foods)%nat ->
  select foods bit k = subset_of foods (bit mod 2 ^ Z.of_nat k).
Proof.
  intros Hk. unfold subset_of.
  rewrite (select_beyond foods _ k (length foods) Hk).
  - apply select_ext. intros j Hj. symmetry.
    apply Z.mod_pow2_bits_low. lia.
  - intros j Hj. apply Z.mod_pow2_bits_high. lia.
Qed.

Lemma select_sublist (foods : FoodVector) (bit : Z) (k : nat) :
  select foods bit k `sublist_of` take k foods.
Proof.
  induction k as [|k IH]; [constructor|].
  cbn [select].
  destruct (foods !! k) as [food|] eqn:Hk.
  - rewrite (take_S_r _ _ _ Hk).
    apply sublist_app; [exact IH|].
    destruct (bit_set bit (Z.of_nat k)); [reflexivity|].
    apply sublist_nil_l.
  - apply lookup_ge_None in Hk.
    rewrite take_ge in IH by lia. rewrite take_ge by lia.
    destruct (bit_set bit (Z.of_nat k)); cbn; rewrite app_nil_r; exact IH.
Qed.

Lemma subset_of_sublist (foods : FoodVector) (bit : Z) :
  subset_of foods bit `sublist_of` foods.
Proof.
  unfold subset_of.
  rewrite <- (firstn_all foods) at 3. apply select_sublist.
Qed.

(** *** One comparison *)

Lemma consider_noop (W : float) (cand : FoodVector) (best : FoodVector * float) :
  ((total_weight_of cand <=? W)%float = true ->
   (snd best <? total_calories_of cand)%float = false) ->
  consider W cand best = best.
Proof.
  intros H. unfold consider.
  destruct (total_weight_of cand <=? W)%float; [|reflexivity].
  rewrite H by reflexivity. reflexivity.
Qed.

Lemma consider_keeps (W : float) (cand : FoodVector) (best : FoodVector * float)
    (x : float) :
  (snd best <? x)%float = false ->
  (snd (consider W cand best) <? x)%float = false.
Proof.
  intros Hx. unfold consider.
  destruct (total_weight_of cand <=? W)%float; [|exact Hx].
  destruct (snd best <? total_calories_of cand)%float eqn:Hc; [|exact Hx].
  cbn [snd]. exact (double_ltb_false_trans _ _ _ Hx Hc).
Qed.

Lemma consider_covered (W : float) (cand : FoodVector) (best : FoodVector * float) :
  (total_weight_of cand <=? W)%float = true ->
  (snd (consider W cand best) <? total_calories_of cand)%float = false.
Proof.
  intros Hw. unfold consider. rewrite Hw.
  destruct (snd best <? total_calories_of cand)%float eqn:Hc.
  - apply double_ltb_irrefl.
  - exact Hc.
Qed.

Lemma consider_idem (W : float) (cand : FoodVector) (best : FoodVector * float) :
  consider W cand (consider W cand best) = consider W cand best.
Proof.
  apply consider_noop. intros Hw. apply consider_covered, Hw.
Qed.

Lemma consider_empty (W : float) (best : FoodVector * float) :
  (snd best <? 0)%float = false -> consider W [] best = best.
Proof. intros H. apply consider_noop. intros _. exact H. Qed.

(** *** The comparisons of one counter value come to a single one *)

Lemma prefix_checks_collapse (foods : FoodVector) (W : float) (bit : Z)
    (best : FoodVector * float) (k : nat) :
  0 <= bit -> covers foods W bit best -> (k <= length foods)%nat ->
  prefix_checks foods W bit k best
  = if ((0 <? k)%nat && (bit <? 2 ^ Z.of_nat k))%bool
    then consider W (subset_of foods bit) best else best.
Proof.
  intros Hbit Hcov. induction k as [|k IH]; intros Hk; [reflexivity|].
  cbn [prefix_checks]. rewrite IH by lia. clear IH.
  rewrite select_prefix_subset by exact Hk.
  change (0 <? Datatypes.S k)%nat with true. cbn [andb].
  assert (Hpow : 2 ^ Z.of_nat (Datatypes.S k) = 2 * 2 ^ Z.of_nat k)
    by (rewrite Nat2Z.inj_succ, Z.pow_succ_r by lia; reflexivity).
  assert (Hpos : 0 < 2 ^ Z.of_nat k) by (apply Z.pow_pos_nonneg; lia).
  destruct (Z.ltb_spec bit (2 ^ Z.of_nat (Datatypes.S k))) as [Hlt | Hge].
  - rewrite Z.mod_small by lia.
    destruct ((0 <? k)%nat && (bit <? 2 ^ Z.of_nat k))%bool;
      [apply consider_idem | reflexivity].
  - destruct (Z.ltb_spec bit (2 ^ Z.of_nat k)) as [Hlt' | _]; [lia|].
    rewrite andb_false_r.
    apply consider_noop. apply Hcov.
    pose proof (Z.mod_pos_bound bit (2 ^ Z.of_nat (Datatypes.S k))). lia.
Qed.

(** *** The loop over the counter *)

Lemma full_checks_S (foods : FoodVector) (W : float) (k : nat) :
  full_checks foods W (Datatypes.S k)
  = consider W (subset_of foods (Z.of_nat k)) (full_checks foods W k).
Proof. unfold full_checks. rewrite for_loop_snoc, Z.add_0_l. reflexivity. Qed.

Lemma full_checks_nonneg (foods : FoodVector) (W : float) (k : nat) :
  (snd (full_checks foods W k) <? 0)%float = false.
Proof.
  induction k as [|k IH]; [reflexivity|].
  rewrite full_checks_S. apply consider_keeps, IH.
Qed.

Lemma full_checks_covers (foods : FoodVector) (W : float) (k : nat) :
  covers foods W (Z.of_nat k) (full_checks foods W k).
Proof.
  induction k as [|k IH]; intros m Hm Hw; [lia|].
  rewrite full_checks_S.
  destruct (Z.eq_dec m (Z.of_nat k)) as [-> | Hne].
  - apply consider_covered, Hw.
  - apply consider_keeps. apply IH; [lia | exact Hw].
Qed.

Lemma full_checks_origin (foods : FoodVector) (W : float) (k : nat) :
  full_checks foods W k = ([], 0%float)
  \/ exists m, 0 <= m < Z.of_nat k
       /\ (total_weight_of (subset_of foods m) <=? W)%float = true
       /\ (0 <? total_calories_of (subset_of foods m))%float = true
       /\ full_checks foods W k
          = (subset_of foods m, total_calories_of (subset_of foods m)).
Proof.
  induction k as [|k IH]; [left; reflexivity|].
  rewrite full_checks_S. unfold consider.
  destruct (_ <=? W)%float eqn:Hw;
    [destruct (snd (full_checks foods W k) <? _)%float eqn:Hc|].
  - right. exists (Z.of_nat k). split; [lia|].
    split; [exact Hw|]. split; [|reflexivity].
    exact (double_above_zero _ _ (full_checks_nonneg foods W k) Hc).
  - destruct IH as [IH | (m & Hm & IH)]; [left; exact IH|].
    right. exists m. split; [lia | exact IH].
  - destruct IH as [IH | (m & Hm & IH)]; [left; exact IH|].
    right. exists m. split; [lia | exact IH].
Qed.

Lemma exhaustive_outer_consider (foods : FoodVector) (W : float) (bit : Z)
    (s : search) :
  (length foods < 31)%nat ->
  0 <= bit < 2 ^ Z.of_nat (length foods) ->
  covers foods W bit (best_of s) ->
  (bestTotalCalries s <? 0)%float = false ->
  best_of (exhaustive_outer foods W bit s)
  = consider W (subset_of foods bit) (best_of s).
Proof.
  intros Hn Hbit Hcov Hpos.
  unfold exhaustive_outer, for_int.
  rewrite int_of_size_small
    by (change INT_MAX with 2147483647; lia).
  rewrite Z.sub_0_r, Nat2Z.id, exhaustive_inner_rounds.
  cbn zeta. unfold best_of at 1.
  cbn [BestFoodVector bestTotalCalries].
  rewrite <- surjective_pairing.
  change (BestFoodVector s, bestTotalCalries s) with (best_of s).
  rewrite prefix_checks_collapse by (try exact Hcov; lia).
  destruct (length foods) as [|n] eqn:Hlen.
  - apply length_zero_iff_nil in Hlen. subst foods.
    cbn [andb Nat.ltb Nat.leb]. symmetry. apply consider_empty. exact Hpos.
  - change (0 <? Datatypes.S n)%nat with true. cbn [andb].
    destruct (Z.ltb_spec bit (2 ^ Z.of_nat (Datatypes.S n))); [reflexivity | lia].
Qed.

Lemma exhaustive_rounds (foods : FoodVector) (W : float) (k : nat) :
  (length foods < 31)%nat ->
  Z.of_nat k <= 2 ^ Z.of_nat (length foods) ->
  best_of
    (for_loop 0 k (exhaustive_outer foods W)
       (mkSearch [] 0%float foods 0%float 0%float))
  = full_checks foods W k.
Proof.
  intros Hn. induction k as [|k IH]; intros Hk; [reflexivity|].
  rewrite for_loop_snoc, Z.add_0_l, full_checks_S.
  specialize (IH ltac:(lia)).
  rewrite exhaustive_outer_consider.
  - rewrite IH. reflexivity.
  - exact Hn.
  - lia.
  - rewrite IH. apply full_checks_covers.
  - change ((snd (best_of
      (for_loop 0 k (exhaustive_outer foods W)
         (mkSearch [] 0%float foods 0%float 0%float))) <? 0)%float = false).
    rewrite IH. apply full_checks_nonneg.
Qed.

Lemma exhaustive_max_calories_checks (foods : FoodVector) (W : float) :
  (length foods < 31)%nat ->
  exhaustive_max_calories foods W
  = Returned (fst (full_checks foods W (subsets (length foods)))).
Proof.
  intros Hn. unfold exhaustive_max_calories.
  assert (Hp : pow2_to_int (length foods) = Some (2 ^ Z.of_nat (length foods)))
    by (apply pow2_to_int_Some; auto).
  rewrite Hp. unfold for_int. rewrite Z.sub_0_r.
  f_equal.
  change (BestFoodVector ?s) with (fst (best_of s)).
  rewrite exhaustive_rounds; [reflexivity | exact Hn |].
  assert (0 < 2 ^ Z.of_nat (length foods)) by (apply Z.pow_pos_nonneg; lia).
  lia.
Qed.

Lemma exhaustive_max_calories_large (foods : FoodVector) (W : float) :
  (31 <= length foods)%nat -> exhaustive_max_calories foods W = Undefined.
Proof.
  intros Hn. unfold exhaustive_max_calories.
  apply pow2_to_int_None in Hn. rewrite Hn. reflexivity.
Qed.

(** *** Every subset of the catalog is denoted by a counter value *)

Lemma select_app_l (foods more : FoodVector) (bit : Z) (k : nat) :
  (k <= length foods)%nat ->
  select (foods ++ more) bit k = select foods bit k.
Proof.
  induction k as [|k IH]; intros Hk; [reflexivity|].
  cbn [select]. rewrite IH by lia.
  rewrite lookup_app_l by lia. reflexivity.
Qed.

Lemma sublist_subset_of (foods sub : FoodVector) :
  sub `sublist_of` foods ->
  exists m, 0 <= m < 2 ^ Z.of_nat (length foods) /\ subset_of foods m = sub.
Proof.
  revert sub. induction foods as [|food foods IH] using rev_ind; intros sub Hsub.
  - apply sublist_nil_r in Hsub. subst sub. exists 0. split; [cbn; lia | reflexivity].
  - apply sublist_app_r in Hsub.
    destruct Hsub as (sub1 & sub2 & -> & Hsub1 & Hsub2).
    destruct (IH sub1 Hsub1) as (m & Hm & Hsel). clear IH.
    set (n := length foods) in *.
    assert (Hlen : length (foods ++ [food]) = Datatypes.S n)
      by (rewrite length_app; cbn; lia).
    assert (Hpow : 2 ^ Z.of_nat (Datatypes.S n) = 2 * 2 ^ Z.of_nat n)
      by (rewrite Nat2Z.inj_succ, Z.pow_succ_r by lia; reflexivity).
    assert (Hlast : (foods ++ [food]) !! n = Some food)
      by (apply list_lookup_middle; reflexivity).
    assert (Hlow : forall m', (forall j, 0 <= j < Z.of_nat n ->
                                Z.testbit m' j = Z.testbit m j) ->
              select (foods ++ [food]) m' n = sub1).
    { intros m' Hbits. rewrite select_app_l by (unfold n; lia).
      rewrite <- Hsel. apply select_ext. exact Hbits. }
    unfold subset_of. rewrite Hlen, Hpow. cbn [select]. rewrite Hlast.
    assert (Hcases : sub2 = [] \/ sub2 = [food]).
    { inversion Hsub2 as [| x l1 l2 Hnil | x l1 l2 Hnil]; subst;
        apply sublist_nil_r in Hnil; subst; auto. }
    clear Hsub2. destruct Hcases as [-> | ->].
    + exists m. split; [lia|].
      rewrite Hlow by reflexivity.
      rewrite bit_set_testbit by lia.
      replace (Z.testbit m (Z.of_nat n)) with false; [reflexivity|].
      symmetry. rewrite <- (Z.mod_small m (2 ^ Z.of_nat n)) by lia.
      apply Z.mod_pow2_bits_high. lia.
    + exists (m + 2 ^ Z.of_nat n). split; [lia|].
      rewrite Hlow.
      * rewrite bit_set_testbit by lia.
        replace (Z.testbit (m + 2 ^ Z.of_nat n) (Z.of_nat n)) with true;
          [reflexivity|].
        symmetry. apply Z.testbit_true; [lia|].
        replace (m + 2 ^ Z.of_nat n) with (m + 1 * 2 ^ Z.of_nat n) by lia.
        rewrite Z.div_add, Z.div_small by lia. reflexivity.
      * intros j Hj.
        rewrite <- (Z.mod_pow2_bits_low (m + 2 ^ Z.of_nat n) (Z.of_nat n) j) by lia.
        replace (m + 2 ^ Z.of_nat n) with (m + 1 * 2 ^ Z.of_nat n) by lia.
        rewrite Z.mod_add, Z.mod_small by lia. reflexivity.
Qed.

Lemma for_loop_ext {S : Type} (body body' : Z -> S -> S) (c : nat) :
  (forall i s, body i s = body' i s) ->
  forall i s, for_loop i c body s = for_loop i c body' s.
Proof.
  intros Hext. induction c as [|c IH]; intros i s; [reflexivity|].
  cbn [for_loop]. rewrite Hext. apply IH.
Qed.

Lemma spec_subset_subset_of (foods : FoodVector) (bit : Z) :
  spec_subset foods bit = subset_of foods bit.
Proof.
  unfold spec_subset, subset_of.
  induction foods as [|food foods IH] using rev_ind; [reflexivity|].
  rewrite imap_app, filter_app, fmap_app, IH. clear IH.
  rewrite length_app. cbn [length imap].
  replace (length foods + 1)%nat with (Datatypes.S (length foods)) by lia.
  cbn [select]. rewrite select_app_l by lia.
  rewrite list_lookup_middle by reflexivity.
  rewrite bit_set_testbit by lia.
  rewrite Nat.add_0_r. f_equal.
  rewrite filter_cons, filter_nil. cbn [fst].
  destruct (Z.testbit bit (Z.of_nat (length foods)));
    case_decide; try congruence; reflexivity.
Qed.

Lemma spec_examine_consider (foods : FoodVector) (W : float) (bit : Z)
    (best : FoodVector * float) :
  spec_examine foods W bit best = consider W (subset_of foods bit) best.
Proof.
  unfold spec_examine, consider. cbn zeta.
  rewrite spec_subset_subset_of.
  fold (total_weight_of (subset_of foods bit)).
  fold (total_calories_of (subset_of foods bit)).
  destruct (_ <=? W)%float; [|reflexivity].
  destruct (snd best <? _)%float; reflexivity.
Qed.

Lemma exhaustive_select_spec_checks (foods : FoodVector) (W : float) :
  exhaustive_select_spec foods W
  = fst (full_checks foods W (subsets (length foods))).
Proof.
  unfold exhaustive_select_spec, full_checks. f_equal.
  apply for_loop_ext. intros i s. apply spec_examine_consider.
Qed.

(** *** What the comparisons leave as the best *)

Lemma full_checks_calories (foods : FoodVector) (W : float) (k : nat) :
  snd (full_checks foods W k) = total_calories_of (fst (full_checks foods W k)).
Proof.
  destruct (full_checks_origin foods W k) as [-> | (m & _ & _ & _ & ->)];
    reflexivity.
Qed.

Lemma full_checks_sublist (foods : FoodVector) (W : float) (k : nat) :
  fst (full_checks foods W k) `sublist_of` foods.
Proof.
  destruct (full_checks_origin foods W k) as [-> | (m & _ & _ & _ & ->)].
  - apply sublist_nil_l.
  - apply subset_of_sublist.
Qed.

Lemma full_checks_feasible (foods : FoodVector) (W : float) (k : nat) :
  fst (full_checks foods W k) = []
  \/ (total_weight_of (fst (full_checks foods W k)) <=? W)%float = true.
Proof.
  destruct (full_checks_origin foods W k) as [-> | (m & _ & Hw & _ & ->)];
    [left | right]; [reflexivity | exact Hw].
Qed.

Lemma full_checks_number (foods : FoodVector) (W : float) (k : nat) :
  is_nan (total_calories_of (fst (full_checks foods W k))) = false.
Proof.
  destruct (full_checks_origin foods W k) as [-> | (m & _ & _ & Hpos & ->)].
  - reflexivity.
  - apply (double_ltb_number _ _ Hpos).
Qed.

Lemma subsets_pow (n : nat) : Z.of_nat (subsets n) = 2 ^ Z.of_nat n.
Proof.
  unfold subsets. apply Z2Nat.id. apply Z.pow_nonneg. lia.
Qed.


Lemma full_checks_none (foods : FoodVector) (W : float) :
  (forall m, 0 <= m < 2 ^ Z.of_nat (length foods) ->
     (total_weight_of (subset_of foods m) <=? W)%float = true ->
     (0 <? total_calories_of (subset_of foods m))%float = false) ->
  forall k, Z.of_nat k <= 2 ^ Z.of_nat (length foods) ->
    full_checks foods W k = ([], 0%float).
Proof.
  intros Hnone. induction k as [|k IH]; intros Hk; [reflexivity|].
  rewrite full_checks_S, IH by lia.
  apply consider_noop. intros Hw.
  apply Hnone; [lia | exact Hw].
Qed.

Lemma exhaustive_beats_sublist (foods sub : FoodVector) (W : float) :
  sub `sublist_of` foods -> (total_weight_of sub <=? W)%float = true ->
  (total_calories_of (fst (full_checks foods W (subsets (length foods))))
   <? total_calories_of sub)%float = false.
Proof.
  intros Hsub Hw.
  destruct (sublist_subset_of foods sub Hsub) as (m & Hm & <-).
  rewrite <- full_checks_calories.
  apply full_checks_covers; [|exact Hw].
  rewrite subsets_pow. exact Hm.
Qed.

(** ** Analysis of the greedy selection *)

Lemma percent_items_fmap (foods : FoodVector) :
  percent_items foods
  = (fun food => mkPercentItem (ratio (target food)) (target food)) <$> foods.
Proof.
  unfold percent_items.
  enough (H : forall acc,
    fold_left
      (fun v food =>
         push_back v
           (mkPercentItem
              (foodCalories (target food) / weight (target food))%float
              (target food))) foods acc
    = acc ++ ((fun food => mkPercentItem (ratio (target food)) (target food))
                <$> foods)) by apply (H []).
  induction foods as [|food foods IH]; intros acc; cbn.
  - symmetry. apply app_nil_r.
  - rewrite IH. unfold push_back. rewrite <- app_assoc. reflexivity.
Qed.

Lemma percent_items_item (foods : FoodVector) :
  item <$> percent_items foods = target <$> foods.
Proof.
  rewrite percent_items_fmap, <- list_fmap_compose. reflexivity.
Qed.

Lemma percent_items_percent (foods : FoodVector) (p : percentItem) :
  p ∈ percent_items foods -> percent p = ratio (item p).
Proof.
  rewrite percent_items_fmap. intros Hp.
  apply list_elem_of_fmap in Hp. destruct Hp as (food & -> & _). reflexivity.
Qed.

Lemma percent_items_numbers (foods : FoodVector) :
  ratios_are_numbers foods -> Forall percent_is_number (percent_items foods).
Proof.
  intros Hnum. rewrite percent_items_fmap.
  apply Forall_fmap. eapply Forall_impl; [exact Hnum|].
  intros food H. exact H.
Qed.

Lemma ranking_sorted (sorter : StdSort) (foods : FoodVector) :
  ratios_are_numbers foods ->
  StronglySorted ranked_before (std_sort sorter (percent_items foods)).
Proof. intros Hnum. apply std_sort_sorted, percent_items_numbers, Hnum. Qed.

Lemma greedy_after_S (r : list percentItem) (W : float) (free k : nat) :
  greedy_after r W free (Datatypes.S k)
  = greedy_body r W (Z.of_nat k) (greedy_after r W free k).
Proof. unfold greedy_after. rewrite for_loop_snoc, Z.add_0_l. reflexivity. Qed.

Lemma greedy_after_step (r : list percentItem) (W : float) (free k : nat)
    (p : percentItem) :
  r !! k = Some p ->
  let s := greedy_after r W free k in
  let s' := greedy_after r W free (Datatypes.S k) in
  ((capacity s + weight (item p) <=? W)%float = true
   /\ GreedyFoodVector s'
      = GreedyFoodVector s ++ [SharedPtr (next_address s) (item p)]
   /\ capacity s' = (capacity s + weight (item p))%float
   /\ next_address s' = Datatypes.S (next_address s))
  \/ ((capacity s + weight (item p) <=? W)%float = false
      /\ GreedyFoodVector s' = GreedyFoodVector s
      /\ capacity s' = capacity s
      /\ next_address s' = next_address s).
Proof.
  intros Hk s s'. subst s'. rewrite greedy_after_S. fold s.
  unfold greedy_body. rewrite Nat2Z.id, Hk. cbn zeta.
  destruct (capacity s + weight (item p) <=? W)%float.
  - left. repeat split.
  - right. repeat split.
Qed.

Lemma greedy_after_beyond (r : list percentItem) (W : float) (free k : nat) :
  r !! k = None ->
  greedy_after r W free (Datatypes.S k) = greedy_after r W free k.
Proof.
  intros Hk. rewrite greedy_after_S. unfold greedy_body.
  rewrite Nat2Z.id, Hk. reflexivity.
Qed.

Lemma greedy_after_inv (r : list percentItem) (W : float) (free k : nat) :
  let s := greedy_after r W free k in
  capacity s = total_weight_of (GreedyFoodVector s)
  /\ (GreedyFoodVector s = [] \/ (capacity s <=? W)%float = true)
  /\ address <$> GreedyFoodVector s = seq free (length (GreedyFoodVector s))
  /\ next_address s = (free + length (GreedyFoodVector s))%nat.
Proof.
  induction k as [|k IH].
  - cbn. repeat split; auto.
  - destruct IH as (Hcap & Hfit & Haddr & Hnext).
    destruct (r !! k) as [p|] eqn:Hk.
    + destruct (greedy_after_step r W free k p Hk)
        as [(Hw & Hv & Hc & Hn) | (Hw & Hv & Hc & Hn)];
        cbn zeta; rewrite Hv, Hc, Hn.
      * rewrite total_weight_of_snoc, fmap_app, length_app, seq_app.
        cbn [target fmap list_fmap length seq address].
        rewrite Haddr, Hnext, <- Hcap.
        repeat split; auto. lia.
      * repeat split; auto.
    + cbn zeta. rewrite (greedy_after_beyond r W free k Hk).
      repeat split; auto.
Qed.

Lemma greedy_after_extends (r : list percentItem) (W : float) (free k k' : nat) :
  (k <= k')%nat ->
  exists rest,
    GreedyFoodVector (greedy_after r W free k')
    = GreedyFoodVector (greedy_after r W free k) ++ rest
    /\ target <$> rest `sublist_of` item <$> drop k (take k' r).
Proof.
  intros Hkk'. induction Hkk' as [|k' Hkk' IH].
  - exists []. split; [symmetry; apply app_nil_r | apply sublist_nil_l].
  - destruct IH as (rest & Hrest & Hsub).
    destruct (r !! k') as [p|] eqn:Hk'.
    + assert (Hlen : (k' < length r)%nat) by (eapply lookup_lt_Some, Hk').
      rewrite (take_S_r _ _ _ Hk').
      rewrite drop_app_le by (rewrite length_take; lia).
      rewrite fmap_app.
      destruct (greedy_after_step r W free k' p Hk')
        as [(_ & Hv & _) | (_ & Hv & _)]; rewrite Hv, Hrest.
      * exists (rest ++ [SharedPtr
                           (next_address (greedy_after r W free k')) (item p)]).
        split; [symmetry; apply app_assoc|].
        rewrite fmap_app. apply sublist_app; [exact Hsub | reflexivity].
      * exists rest. split; [reflexivity|].
        apply sublist_inserts_r, Hsub.
    + rewrite (greedy_after_beyond r W free k' Hk').
      apply lookup_ge_None in Hk'.
      rewrite take_ge in Hsub by lia. rewrite take_ge by lia.
      exists rest. auto.
Qed.

Lemma greedy_after_sublist (r : list percentItem) (W : float) (free k : nat) :
  target <$> GreedyFoodVector (greedy_after r W free k) `sublist_of` item <$> r.
Proof.
  destruct (greedy_after_extends r W free 0 k ltac:(lia)) as (rest & -> & Hsub).
  cbn. rewrite drop_0 in Hsub.
  etrans; [exact Hsub|].
  apply fmap_sublist, sublist_take.
Qed.

Lemma greedy_feasible (sorter : StdSort) (free : nat) (foods : FoodVector)
    (W : float) :
  greedy_max_calories sorter free foods W = []
  \/ (total_weight_of (greedy_max_calories sorter free foods W) <=? W)%float = true.
Proof.
  unfold greedy_max_calories. cbn zeta.
  set (r := std_sort sorter (percent_items foods)).
  set (k := Z.to_nat _).
  destruct (greedy_after_inv r W free k) as (Hcap & [Hnil | Hfit] & _).
  - left. exact Hnil.
  - right. rewrite <- Hcap. exact Hfit.
Qed.

(** *** Further facts used for the greedy selection *)

Lemma StronglySorted_ranked (r : list percentItem) (i j : nat)
    (a b : percentItem) :
  StronglySorted ranked_before r -> (i < j)%nat ->
  r !! i = Some a -> r !! j = Some b -> ranked_before a b.
Proof.
  intros Hsorted. revert i j.
  induction Hsorted as [|x r Hsorted IH Hall]; intros i j Hij Hi Hj.
  - rewrite lookup_nil in Hi. discriminate.
  - destruct j as [|j]; [lia|]. cbn in Hj.
    destruct i as [|i]; cbn in Hi.
    + injection Hi as ->.
      rewrite Forall_forall in Hall. apply Hall.
      apply list_elem_of_lookup. eauto.
    + apply (IH i j); [lia | assumption..].
Qed.

Lemma ranking_items (sorter : StdSort) (foods : FoodVector) :
  item <$> std_sort sorter (percent_items foods) ≡ₚ target <$> foods.
Proof.
  rewrite (std_sort_permutation sorter). rewrite percent_items_item. reflexivity.
Qed.

Lemma greedy_rounds (sorter : StdSort) (free : nat) (foods : FoodVector)
    (W : float) :
  Z.of_nat (length foods) <= INT_MAX ->
  greedy_max_calories sorter free foods W
  = GreedyFoodVector
      (greedy_after (std_sort sorter (percent_items foods)) W free
         (length (std_sort sorter (percent_items foods)))).
Proof.
  intros Hn. unfold greedy_max_calories. cbn zeta.
  assert (Hlen : length (std_sort sorter (percent_items foods)) = length foods).
  { rewrite (std_sort_permutation sorter), percent_items_fmap.
    apply length_fmap. }
  rewrite int_of_size_small by (rewrite Hlen; exact Hn).
  rewrite Z.sub_0_r, Nat2Z.id. reflexivity.
Qed.

Lemma greedy_selection_sublist (sorter : StdSort) (free : nat)
    (foods : FoodVector) (W : float) :
  target <$> greedy_max_calories sorter free foods W
  `sublist_of` item <$> std_sort sorter (percent_items foods).
Proof. unfold greedy_max_calories. cbn zeta. apply greedy_after_sublist. Qed.

Lemma greedy_selection_submseteq (sorter : StdSort) (free : nat)
    (foods : FoodVector) (W : float) :
  target <$> greedy_max_calories sorter free foods W ⊆+ target <$> foods.
Proof.
  rewrite <- (ranking_items sorter foods).
  apply sublist_submseteq, greedy_selection_sublist.
Qed.

Lemma greedy_after_all_rejected (r : list percentItem) (W : float) (free : nat) :
  (forall p, p ∈ r -> (0 + weight (item p) <=? W)%float = false) ->
  forall k, GreedyFoodVector (greedy_after r W free k) = []
            /\ capacity (greedy_after r W free k) = 0%float.
Proof.
  intros Hrej. induction k as [|k [IHv IHc]]; [split; reflexivity|].
  destruct (r !! k) as [p|] eqn:Hk.
  - destruct (greedy_after_step r W free k p Hk)
      as [(Hw & _) | (_ & Hv & Hc & _)].
    + exfalso. rewrite IHc in Hw.
      rewrite (Hrej p) in Hw; [discriminate|].
      apply list_elem_of_lookup. eauto.
    + rewrite Hv, Hc. auto.
  - rewrite (greedy_after_beyond r W free k Hk). auto.
Qed.

(** *** The running weight of the greedy loop never falls *)

Lemma double_leb_refl (x : float) :
  (0 <=? x)%float = true -> (x <=? x)%float = true.
Proof. intros H. float_order. Qed.

Lemma greedy_capacity_grows (r : list percentItem) (W : float) (free : nat) :
  (forall q, q ∈ r -> (0 <? weight (item q))%float = true) ->
  forall k k', (k <= k')%nat ->
    (0 <=? capacity (greedy_after r W free k))%float = true
    /\ (capacity (greedy_after r W free k)
        <=? capacity (greedy_after r W free k'))%float = true.
Proof.
  intros Hpos.
  assert (Hzero : forall k, (0 <=? capacity (greedy_after r W free k))%float = true).
  { induction k as [|k IH]; [reflexivity|].
    destruct (r !! k) as [p|] eqn:Hk.
    - destruct (greedy_after_step r W free k p Hk)
        as [(_ & _ & Hc & _) | (_ & _ & Hc & _)]; cbn zeta in Hc; rewrite Hc.
      + eapply double_leb_trans; [exact IH|].
        apply double_add_grows; [exact IH|].
        apply Hpos. eapply list_elem_of_lookup_2, Hk.
      + exact IH.
    - rewrite (greedy_after_beyond r W free k Hk). exact IH. }
  intros k k' Hkk'. split; [apply Hzero|].
  induction Hkk' as [|k' Hkk' IH].
  - apply double_leb_refl, Hzero.
  - eapply double_leb_trans; [exact IH|].
    destruct (r !! k') as [p|] eqn:Hk.
    + destruct (greedy_after_step r W free k' p Hk)
        as [(_ & _ & Hc & _) | (_ & _ & Hc & _)]; cbn zeta in Hc; rewrite Hc.
      * apply double_add_grows; [apply Hzero|].
        apply Hpos. eapply list_elem_of_lookup_2, Hk.
      * apply double_leb_refl, Hzero.
    + rewrite (greedy_after_beyond r W free k' Hk).
      apply double_leb_refl, Hzero.
Qed.

Lemma total_weight_of_positive (l : FoodVector) :
  Forall (fun food => FoodItem_valid (target food)) l ->
  l <> [] -> (0 <? total_weight_of l)%float = true.
Proof.
  induction l as [|food l IH] using rev_ind; intros Hvalid Hne; [congruence|].
  apply Forall_app in Hvalid. destruct Hvalid as [Hl Hfood].
  apply (proj1 (Forall_singleton _ food)) in Hfood.
  destruct Hfood as [_ Hpos].
  rewrite total_weight_of_snoc.
  destruct l as [|x l'] eqn:Hl'.
  - change (total_weight_of []) with 0%float.
    rewrite add_0_positive by exact Hpos. exact Hpos.
  - apply add_positive; [|exact Hpos].
    apply IH; [exact Hl | discriminate].
Qed.

Lemma total_weight_of_nonneg (l : FoodVector) :
  Forall (fun food => FoodItem_valid (target food)) l ->
  (0 <=? total_weight_of l)%float = true.
Proof.
  intros Hvalid. destruct l as [|x l]; [reflexivity|].
  assert (Hpos := total_weight_of_positive _ Hvalid ltac:(discriminate)).
  float_order.
Qed.

Lemma total_weight_of_prefix (l l' : FoodVector) :
  Forall (fun food => FoodItem_valid (target food)) (l ++ l') ->
  (total_weight_of l <=? total_weight_of (l ++ l'))%float = true.
Proof.
  induction l' as [|x l' IH] using rev_ind; intros Hvalid.
  - rewrite app_nil_r in *. apply double_leb_refl, total_weight_of_nonneg, Hvalid.
  - rewrite app_assoc in *. apply Forall_app in Hvalid. destruct Hvalid as [Hl Hx].
    apply (proj1 (Forall_singleton _ x)) in Hx. destruct Hx as [_ Hpos].
    rewrite total_weight_of_snoc.
    eapply double_leb_trans; [apply IH, Hl|].
    apply double_add_grows; [apply total_weight_of_nonneg, Hl | exact Hpos].
Qed.

Lemma nothing_selectable (foods : FoodVector) (W : float) :
  Forall (fun food => FoodItem_valid (target food)) foods ->
  foods = [] \/ (W <=? 0)%float = true ->
  forall m, (total_weight_of (subset_of foods m) <=? W)%float = true ->
    (0 <? total_calories_of (subset_of foods m))%float = false.
Proof.
  intros Hvalid Hcase m Hw.
  assert (Hsub := subset_of_sublist foods m).
  assert (Hnil : subset_of foods m = []).
  { destruct Hcase as [-> | HW]; [apply sublist_nil_r, Hsub|].
    destruct (subset_of foods m) as [|x sub] eqn:Hm; [reflexivity | exfalso].
    assert (Hv : Forall (fun food => FoodItem_valid (target food)) (x :: sub)).
    { rewrite Forall_forall in Hvalid. apply Forall_forall. intros y Hy.
      apply Hvalid. eapply elem_of_sublist; eauto. }
    assert (Hpos := total_weight_of_positive _ Hv ltac:(discriminate)).
    rewrite (double_too_heavy _ _ Hpos HW) in Hw. discriminate. }
  rewrite Hnil. reflexivity.
Qed.

(** *** The order of items the comparator separates *)

Lemma ranking_unique (sorter1 sorter2 : StdSort) (foods : FoodVector) :
  ratios_are_numbers foods ->
  distinct_ratios foods ->
  std_sort sorter1 (percent_items foods) = std_sort sorter2 (percent_items foods).
Proof.
  intros Hnum Hdistinct.
  apply (StronglySorted_unique_strong ranked_before).
  - intros x1 x2 Hx1 Hx2 H12 H21.
    rewrite (std_sort_permutation sorter1) in Hx1.
    rewrite (std_sort_permutation sorter2) in Hx2.
    rewrite percent_items_fmap in Hx1, Hx2.
    apply list_elem_of_lookup in Hx1, Hx2.
    destruct Hx1 as [i Hi], Hx2 as [j Hj].
    rewrite list_lookup_fmap in Hi, Hj.
    destruct (foods !! i) as [a|] eqn:Ha; [|discriminate].
    destruct (foods !! j) as [b|] eqn:Hb; [|discriminate].
    cbn in Hi, Hj. injection Hi as <-. injection Hj as <-.
    destruct (Nat.eq_dec i j) as [-> | Hij]; [congruence | exfalso].
    unfold ranked_before, sortPercentage in H12, H21. cbn [percent] in H12, H21.
    destruct (Hdistinct i j a b Hij Ha Hb) as [H | H];
      unfold ratio in *; congruence.
  - apply ranking_sorted, Hnum.
  - apply ranking_sorted, Hnum.
  - rewrite !std_sort_permutation. reflexivity.
Qed.

Lemma ranking_numbers (sorter : StdSort) (foods : FoodVector) (p : percentItem) :
  ratios_are_numbers foods ->
  p ∈ std_sort sorter (percent_items foods) ->
  percent p = ratio (item p) /\ is_nan (ratio (item p)) = false.
Proof.
  intros Hnum Hp. rewrite (std_sort_permutation sorter) in Hp.
  assert (Hpercent := percent_items_percent foods p Hp).
  split; [exact Hpercent|]. rewrite <- Hpercent.
  apply percent_items_numbers in Hnum. rewrite Forall_forall in Hnum.
  apply Hnum, Hp.
Qed.

(** *** Order and identity of the selected items *)

Lemma greedy_addresses (sorter : StdSort) (free : nat) (foods : FoodVector)
    (W : float) :
  address <$> greedy_max_calories sorter free foods W
  = seq free (length (greedy_max_calories sorter free foods W)).
Proof. unfold greedy_max_calories. cbn zeta. apply greedy_after_inv. Qed.

Lemma StronglySorted_sublist {A : Type} (R : relation A) (k l : list A) :
  k `sublist_of` l -> StronglySorted R l -> StronglySorted R k.
Proof.
  induction 1 as [|x k l Hkl IH|x k l Hkl IH]; intros Hl.
  - constructor.
  - apply StronglySorted_inv in Hl. destruct Hl as [Hl Hall].
    constructor; [apply IH, Hl|].
    rewrite Forall_forall in Hall. apply Forall_forall.
    intros y Hy. apply Hall. eapply elem_of_sublist; eauto.
  - apply StronglySorted_inv in Hl. apply IH, Hl.
Qed.

Lemma StronglySorted_impl_on {A : Type} (R R' : relation A) (P : A -> Prop)
    (l : list A) :
  (forall x y, P x -> P y -> R x y -> R' x y) ->
  Forall P l -> StronglySorted R l -> StronglySorted R' l.
Proof.
  intros Himpl HP. induction 1 as [|x l Hsorted IH Hall]; [constructor|].
  apply Forall_cons in HP. destruct HP as [Hx Hl].
  constructor; [apply IH, Hl|].
  rewrite Forall_forall in Hall, Hl. apply Forall_forall. intros y Hy.
  apply Himpl; auto.
Qed.

(** ** Facts about the filter *)

Lemma filter_loop_take (source : FoodVector) (lo hi : float) (total_size : Z) :
  total_size <= INT_MAX ->
  forall acc, (length acc <= Z.to_nat total_size)%nat ->
    filter_loop source lo hi total_size acc
    = take (Z.to_nat total_size)
        (acc ++ filter (fun food => calories_within lo hi food = true) source).
Proof.
  change INT_MAX with 2147483647.
  intros Hmax. induction source as [|food rest IH]; intros acc Hacc.
  - cbn [filter_loop]. rewrite filter_nil, app_nil_r, take_ge by lia. reflexivity.
  - cbn [filter_loop]. rewrite filter_cons.
    destruct (calories_within lo hi food) eqn:Hin.
    + rewrite decide_True by reflexivity.
      rewrite int_of_size_small by (change INT_MAX with 2147483647; lia).
      destruct (Z.ltb_spec (Z.of_nat (length acc)) total_size) as [Hlt | Hge].
      * rewrite IH by (unfold push_back; rewrite length_app; cbn; lia).
        unfold push_back. rewrite <- app_assoc. reflexivity.
      * rewrite take_app_le by lia. rewrite take_ge by lia. reflexivity.
    + rewrite decide_False by congruence. apply IH, Hacc.
Qed.

Lemma calories_within_spec (lo hi : float) (food : shared_ptr) :
  calories_within lo hi food = true
  <-> (lo <=? foodCalories (target food))%float = true
      /\ (foodCalories (target food) <=? hi)%float = true.
Proof. unfold calories_within. apply andb_true_iff. Qed.

Lemma filter_all {A : Type} (P : A -> Prop) `{!forall x, Decision (P x)}
    (l : list A) :
  Forall P l -> filter P l = l.
Proof.
  induction 1 as [|x l Hx Hl IH]; [reflexivity|].
  rewrite filter_cons, decide_True by exact Hx. rewrite IH. reflexivity.
Qed.

(** Rewrites [filter_food_vector] into the first matches, given
    [Hmax : total_size <= INT_MAX]. *)
Ltac filter_as_take Hmax :=
  unfold filter_food_vector;
  rewrite !filter_loop_take by first [exact Hmax | cbn; lia];
  cbn [app].

(** ** Facts about strings and the loader *)

Lemma append_empty_r (s : string) : append s EmptyString = s.
Proof. induction s as [|c s IH]; cbn; [|rewrite IH]; reflexivity. Qed.

Lemma append_assoc (s t u : string) :
  append (append s t) u = append s (append t u).
Proof. induction s as [|c s IH]; cbn; [|rewrite IH]; reflexivity. Qed.

Lemma getline_all_field (delim : ascii) (t : string) :
  occurs delim t = false ->
  forall field rest,
    getline_all delim field (append t (String delim rest))
    = append field t :: getline_all delim EmptyString rest.
Proof.
  induction t as [|c t IH]; intros Hocc field rest; cbn.
  - rewrite Ascii.eqb_refl, append_empty_r. reflexivity.
  - cbn in Hocc. apply orb_false_iff in Hocc. destruct Hocc as [Hc Ht].
    rewrite Hc, (IH Ht), append_assoc. reflexivity.
Qed.

Lemma getline_all_last (delim : ascii) (t : string) :
  occurs delim t = false ->
  forall field,
    getline_all delim field t
    = match append field t with
      | EmptyString => []
      | _ => [append field t]
      end.
Proof.
  induction t as [|c t IH]; intros Hocc field; cbn.
  - rewrite append_empty_r. reflexivity.
  - cbn in Hocc. apply orb_false_iff in Hocc. destruct Hocc as [Hc Ht].
    rewrite Hc, (IH Ht), append_assoc. reflexivity.
Qed.

Lemma new_FoodItem_Some (d : string) (w c : float) (food : FoodItem) :
  new_FoodItem d w c = Some food
  <-> food = mkFoodItem d w c /\ FoodItem_valid food.
Proof.
  unfold new_FoodItem, FoodItem_valid.
  destruct (String.eqb_spec d EmptyString) as [Hd | Hd]; cbn [negb andb].
  - split; [discriminate|]. intros [-> [Hne _]]. cbn in Hne. contradiction.
  - destruct (0 <? w)%float eqn:Hw.
    + split.
      * intros [= <-]. auto.
      * intros [-> _]. reflexivity.
    + split; [discriminate|].
      intros [-> [_ Hpos]]. cbn in Hpos. congruence.
Qed.

Lemma new_FoodItem_None (d : string) (w c : float) :
  d = EmptyString \/ (0 <? w)%float = false -> new_FoodItem d w c = None.
Proof.
  intros Hbad. destruct (new_FoodItem d w c) as [food|] eqn:Hnew; [|reflexivity].
  apply new_FoodItem_Some in Hnew. destruct Hnew as [-> [Hd Hw]]. cbn in Hd, Hw.
  destruct Hbad as [Hbad | Hbad]; [contradiction | congruence].
Qed.

Lemma load_lines_step (read_double : string -> option float) (line : string)
    (rest : list string) (n : nat) (result : FoodVector) (free : nat) :
  (1 <= n)%nat ->
  load_lines read_double (line :: rest) n result free
  = match getline_all "^"%char EmptyString line with
    | [d; w; c] =>
        match read_double w, read_double c with
        | Some x, Some y =>
            match new_FoodItem d x y with
            | Some food =>
                load_lines read_double rest (Datatypes.S n)
                  (result ++ [SharedPtr free food]) (Datatypes.S free)
            | None => Aborted
            end
        | _, _ => Indeterminate
        end
    | _ => Failure
    end.
Proof.
  intros Hn. cbn [load_lines].
  destruct (Nat.eqb_spec (Datatypes.S n) 1) as [Heq | _]; [lia|].
  destruct (getline_all "^"%char EmptyString line) as [|d [|w [|c [|x fields]]]];
    reflexivity.
Qed.

Lemma load_lines_Loaded (read_double : string -> option float) (rows : list string) :
  forall n result free v,
    (1 <= n)%nat ->
    load_lines read_double rows n result free = Loaded v ->
    exists items,
      v = result ++ items
      /\ Forall2 (row_item read_double) rows (target <$> items)
      /\ address <$> items = seq free (length rows).
Proof.
  induction rows as [|line rows IH]; intros n result free v Hn Hload.
  - cbn in Hload. injection Hload as <-. exists [].
    rewrite app_nil_r. repeat split. constructor.
  - rewrite load_lines_step in Hload by exact Hn.
    destruct (getline_all "^"%char EmptyString line)
      as [|d [|w [|c [|x fields]]]] eqn:Hfields; try discriminate.
    destruct (read_double w) as [x|] eqn:Hx; [|discriminate].
    destruct (read_double c) as [y|] eqn:Hy; [|discriminate].
    destruct (new_FoodItem d x y) as [food|] eqn:Hnew; [|discriminate].
    apply new_FoodItem_Some in Hnew. destruct Hnew as [Hfood Hvalid].
    destruct (IH (Datatypes.S n) (result ++ [SharedPtr free food])
                (Datatypes.S free) v ltac:(lia) Hload)
      as (items & -> & Hrows & Haddr).
    exists (SharedPtr free food :: items).
    split; [rewrite <- app_assoc; reflexivity|].
    split.
    + cbn. constructor; [|exact Hrows].
      exists d, w, c, x, y. auto.
    + cbn. rewrite Haddr. reflexivity.
Qed.

Lemma load_lines_good (read_double : string -> option float)
    (good more : list string) :
  Forall (fun line => exists food, row_item read_double line food) good ->
  forall n result free,
    (1 <= n)%nat ->
    exists items,
      length items = length good
      /\ load_lines read_double (good ++ more) n result free
         = load_lines read_double more (n + length good)
             (result ++ items) (free + length good).
Proof.
  induction 1
    as [|line good (food & d & w & c & x & y & Hfields & Hx & Hy & Hfood & Hvalid)
          _ IH];
    intros n result free Hn.
  - exists []. cbn. rewrite app_nil_r, !Nat.add_0_r. auto.
  - cbn [app]. rewrite load_lines_step by exact Hn. rewrite Hfields, Hx, Hy.
    assert (Hnew : new_FoodItem d x y = Some food)
      by (apply new_FoodItem_Some; auto).
    rewrite Hnew.
    destruct (IH (Datatypes.S n) (result ++ [SharedPtr free food])
                (Datatypes.S free) ltac:(lia)) as (items & Hlen & ->).
    exists (SharedPtr free food :: items).
    split; [cbn; lia|].
    rewrite <- app_assoc. cbn [app length].
    replace (n + Datatypes.S (length good))%nat
      with (Datatypes.S n + length good)%nat by lia.
    replace (free + Datatypes.S (length good))%nat
      with (Datatypes.S free + length good)%nat by lia.
    reflexivity.
Qed.

Lemma load_food_database_lines (read_double : string -> option float) (free : nat)
    (text header : string) (data : list string) :
  getline_all "010"%char EmptyString text = header :: data ->
  load_food_database read_double free (Some text)
  = load_lines read_double data 1 [] free.
Proof. intros Hlines. unfold load_food_database. rewrite Hlines. reflexivity. Qed.

(** ** Runs on small catalogs *)

Example exhaustive_run :
  exhaustive_max_calories [item_A; item_B; item_C] 10
  = Returned [item_A; item_C].
Proof. vm_compute. reflexivity. Qed.

Example exhaustive_run_totals :
  sum_food_vector [item_A; item_C] = (10%float, 105%float).
Proof. vm_compute. reflexivity. Qed.

Example greedy_run :
  greedy_max_calories merge_sorter 3 [item_A; item_B; item_C] 10
  = [SharedPtr 3 (target item_C); SharedPtr 4 (target item_A)].
Proof. vm_compute. reflexivity. Qed.

Example greedy_run_short_of_room :
  greedy_max_calories merge_sorter 3 [item_A; item_B; item_C] 9
  = [SharedPtr 3 (target item_C)]
  /\ exhaustive_max_calories [item_A; item_B; item_C] 9 = Returned [item_C].
Proof. split; vm_compute; reflexivity. Qed.

(** The sum 0.3 + 0.2 + 0.1 rounds to the double 0.6, the sum
    0.1 + 0.2 + 0.3 to the next double above it: with the capacity 0.6
    the greedy selection holds all three items, 41 calories, and the
    exhaustive search, which adds in the order of the catalog, returns two
    of them, 40 calories. *)
Example greedy_run_beats_exhaustive :
  greedy_max_calories merge_sorter 3 [tea; nuts; oats] 0.6
  = [SharedPtr 3 (target oats); SharedPtr 4 (target nuts); SharedPtr 5 (target tea)]
  /\ exhaustive_max_calories [tea; nuts; oats] 0.6 = Returned [nuts; oats]
  /\ total_calories_of [oats; nuts; tea] = 41%float
  /\ total_calories_of [nuts; oats] = 40%float.
Proof. repeat split; vm_compute; reflexivity. Qed.

(** With the capacity 2 the search returns [cheese], 2^53 + 4 calories;
    with the capacity 4 it returns [roast; olive], 2^53 + 3 calories, which
    round to the same double. *)
Example exhaustive_run_rounded_calories :
  exhaustive_max_calories [roast; olive; cheese] 2 = Returned [cheese]
  /\ exhaustive_max_calories [roast; olive; cheese] 4 = Returned [roast; olive]
  /\ total_calories_of [roast; olive] = total_calories_of [cheese]
  /\ (exact_calories_of [roast; olive] < exact_calories_of [cheese])%Q.
Proof. repeat split; vm_compute; reflexivity. Qed.

(** On the three rounding catalogs the sort of the GNU library gives the
    ranking of [merge_sorter]. *)
Example libstdcxx_sort_run :
  libstdcxx_sort sortPercentage (percent_items [tea; nuts; oats])
  = Some (std_sort merge_sorter (percent_items [tea; nuts; oats]))
  /\ libstdcxx_sort sortPercentage (percent_items [boulder; pebble])
     = Some (std_sort merge_sorter (percent_items [boulder; pebble]))
  /\ libstdcxx_sort sortPercentage (percent_items [apple; bread])
     = Some (std_sort merge_sorter (percent_items [apple; bread])).
Proof. repeat split; vm_compute; reflexivity. Qed.

(** * The claims *)

(** C1, amended.  For every catalog and every capacity that is zero or
    more, the total weight of the selection of [greedy_max_calories], as
    [sum_food_vector] computes it (the weights added as doubles in the
    order of the selection), is at most the capacity, and so is that of the
    selection that [exhaustive_max_calories] returns for a catalog of
    fewer than 31 items. *)
Theorem selection_fits_capacity (sorter : StdSort) (free : nat)
    (foods : FoodVector) (W : float) :
  (0 <=? W)%float = true ->
  (total_weight_of (greedy_max_calories sorter free foods W) <=? W)%float = true
  /\ ((length foods < 31)%nat ->
      exists best, exhaustive_max_calories foods W = Returned best
                   /\ (total_weight_of best <=? W)%float = true).
Proof.
  intros HW. split.
  - destruct (greedy_feasible sorter free foods W) as [-> | H]; assumption.
  - intros Hn. rewrite exhaustive_max_calories_checks by exact Hn.
    eexists. split; [reflexivity|].
    destruct (full_checks_feasible foods W (subsets (length foods)))
      as [-> | H]; assumption.
Qed.

Lemma selection_fits_capacity_witness :
  (0 <=? 1)%float = true
  /\ (total_weight_of (greedy_max_calories merge_sorter 3 [apple; bread] 1) <=? 1)%float
     = true
  /\ exists best, exhaustive_max_calories [apple; bread] 1 = Returned best
                  /\ (total_weight_of best <=? 1)%float = true.
Proof.
  assert (H : (0 <=? 1)%float = true) by reflexivity.
  split; [exact H|].
  destruct (selection_fits_capacity merge_sorter 3 [apple; bread] 1 H)
    as [Hg He].
  split; [exact Hg | apply He; simpl; lia].
Defined.

(** C1 as stated fails.  With the capacity -1 both solvers return the
    empty selection, whose total weight 0 exceeds the capacity.  And with
    the capacity 2^53 both select the two items [boulder] and [pebble],
    whose weights come to 2^53 + 1 ounces: the sum rounds to 2^53. *)
Lemma selection_exceeds_capacity :
  (greedy_max_calories merge_sorter 3 [apple; bread] (-1) = []
   /\ exhaustive_max_calories [apple; bread] (-1) = Returned []
   /\ (total_weight_of [] <=? -1)%float = false)
  /\ (greedy_max_calories merge_sorter 3 [boulder; pebble] 9007199254740992
      = [SharedPtr 3 (target pebble); SharedPtr 4 (target boulder)]
      /\ exhaustive_max_calories [boulder; pebble] 9007199254740992
         = Returned [boulder; pebble]
      /\ total_weight_of [boulder; pebble] = 9007199254740992%float
      /\ (exact_value 9007199254740992 < exact_weight_of [boulder; pebble])%Q).
Proof. repeat split; vm_compute; reflexivity. Qed.

(** C2, amended.  For every catalog of fewer than 31 items, the bound
    below which the counter holds 2^n, and every capacity: the total
    calories of the selection [exhaustive_max_calories] returns, as
    [sum_food_vector] computes them, are a number, and no sub-vector of the
    catalog whose computed total weight is at most the capacity has greater
    computed total calories; they are at most those of the selection
    unless they are NaN. *)
Theorem exhaustive_is_exact (foods : FoodVector) (W : float) :
  (length foods < 31)%nat ->
  exists best,
    exhaustive_max_calories foods W = Returned best
    /\ is_nan (total_calories_of best) = false
    /\ forall sub, sub `sublist_of` foods ->
         (total_weight_of sub <=? W)%float = true ->
         (total_calories_of best <? total_calories_of sub)%float = false
         /\ (is_nan (total_calories_of sub) = false ->
             (total_calories_of sub <=? total_calories_of best)%float = true).
Proof.
  intros Hn. rewrite exhaustive_max_calories_checks by exact Hn.
  eexists. split; [reflexivity|].
  assert (Hnum := full_checks_number foods W (subsets (length foods))).
  split; [exact Hnum|].
  intros sub Hsub Hw.
  assert (H := exhaustive_beats_sublist foods sub W Hsub Hw).
  split; [exact H|].
  intros Hnum'. apply double_ltb_false_leb; assumption.
Qed.

Lemma exhaustive_is_exact_witness :
  exists best,
    exhaustive_max_calories [apple; bread; plum] 2 = Returned best
    /\ is_nan (total_calories_of best) = false
    /\ forall sub, sub `sublist_of` [apple; bread; plum] ->
         (total_weight_of sub <=? 2)%float = true ->
         (total_calories_of best <? total_calories_of sub)%float = false
         /\ (is_nan (total_calories_of sub) = false ->
             (total_calories_of sub <=? total_calories_of best)%float = true).
Proof. apply (exhaustive_is_exact [apple; bread; plum] 2). simpl. lia. Defined.

(** C2 as stated fails: with the capacity 3 all three items fit and hold
    2^53 + 2 calories, but 2^53 + 1 rounds to 2^53, so no candidate ever
    compares greater than [feast] alone, which is returned. *)
Lemma rounded_calories_hide_a_better_subset :
  exhaustive_max_calories [feast; grape; berry] 3 = Returned [feast]
  /\ [feast; grape; berry] `sublist_of` [feast; grape; berry]
  /\ (exact_weight_of [feast; grape; berry] <= exact_value 3)%Q
  /\ (exact_calories_of [feast] < exact_calories_of [feast; grape; berry])%Q.
Proof.
  split; [vm_compute; reflexivity|].
  split; [reflexivity|].
  split; [vm_compute; discriminate | vm_compute; reflexivity].
Qed.

(** C3 fails: whatever the bound below 32, a catalog of 31 items is at or
    above it, and the call is not rejected: 2^31 does not fit the counter. *)
Lemma no_size_guard :
  exhaustive_max_calories (catalog_of_size 31) 0 = Undefined
  /\ ~ exists bound, Z.of_nat bound < INT_BITS /\ rejects_from bound.
Proof.
  assert (Hlen : length (catalog_of_size 31) = 31%nat) by reflexivity.
  assert (H : exhaustive_max_calories (catalog_of_size 31) 0 = Undefined)
    by (apply exhaustive_max_calories_large; rewrite Hlen; lia).
  split; [exact H|].
  intros (bound & Hb & Hrej).
  destruct (Hrej (catalog_of_size 31) 0%float) as [_ Hno].
  - rewrite Hlen. unfold INT_BITS in Hb. lia.
  - apply Hno, H.
Qed.

(** C3, amended.  [exhaustive_max_calories] checks no size and has no
    error result: for every catalog of fewer than 31 items and every
    capacity it returns a selection. *)
Theorem exhaustive_returns_below_31 (foods : FoodVector) (W : float) :
  (length foods < 31)%nat ->
  exists best, exhaustive_max_calories foods W = Returned best.
Proof.
  intros Hn. rewrite exhaustive_max_calories_checks by exact Hn.
  eexists. reflexivity.
Qed.

Lemma exhaustive_returns_below_31_witness :
  exists best, exhaustive_max_calories [apple; bread; plum] 2 = Returned best.
Proof. apply (exhaustive_returns_below_31 [apple; bread; plum] 2). simpl. lia. Defined.

(** C4, amended.  For every catalog whose size fits an [int] and every
    capacity, in the arithmetic of doubles: the ranking holds the items of
    the catalog, each with the rounded quotient of its calories by its
    weight; when none of these quotients is NaN, no item stands before one
    of a greater quotient; the loop goes through the whole ranking in
    order; the accumulated weight is the total weight of the selection so
    far as [sum_food_vector] computes it; the item at hand is appended
    exactly when the rounded sum of the accumulated weight and its weight
    is at most the capacity, and that rounded sum is then the accumulated
    weight; and what is selected after the first [k] rounds comes from the
    ranking from position [k] on, so no earlier item is taken up again. *)
Theorem greedy_fills_by_ratio (sorter : StdSort) (free : nat)
    (foods : FoodVector) (W : float) :
  Z.of_nat (length foods) <= INT_MAX ->
  let ranking := std_sort sorter (percent_items foods) in
  let after := greedy_after ranking W free in
  (item <$> ranking ≡ₚ target <$> foods
   /\ forall p, p ∈ ranking -> percent p = ratio (item p))
  /\ (ratios_are_numbers foods ->
      forall i j a b, (i < j)%nat ->
        ranking !! i = Some a -> ranking !! j = Some b ->
        (ratio (item b) <=? ratio (item a))%float = true)
  /\ greedy_max_calories sorter free foods W
     = GreedyFoodVector (after (length ranking))
  /\ (forall k p, ranking !! k = Some p ->
        capacity (after k) = total_weight_of (GreedyFoodVector (after k))
        /\ (((capacity (after k) + weight (item p) <=? W)%float = true
             /\ target <$> GreedyFoodVector (after (Datatypes.S k))
                = (target <$> GreedyFoodVector (after k)) ++ [item p]
             /\ capacity (after (Datatypes.S k))
                = (capacity (after k) + weight (item p))%float)
            \/ ((capacity (after k) + weight (item p) <=? W)%float = false
                /\ GreedyFoodVector (after (Datatypes.S k))
                   = GreedyFoodVector (after k)
                /\ capacity (after (Datatypes.S k)) = capacity (after k))))
  /\ (forall k k', (k <= k')%nat ->
        exists rest,
          GreedyFoodVector (after k') = GreedyFoodVector (after k) ++ rest
          /\ target <$> rest `sublist_of` item <$> drop k (take k' ranking)).
Proof.
  intros Hn ranking after.
  assert (Hpercent : forall p, p ∈ ranking -> percent p = ratio (item p)).
  { intros p Hp. apply (percent_items_percent foods).
    rewrite <- (std_sort_permutation sorter). exact Hp. }
  split; [split; [apply ranking_items | exact Hpercent]|].
  split.
  { intros Hnum i j a b Hij Hi Hj.
    assert (Ha : a ∈ ranking) by (apply list_elem_of_lookup; eauto).
    assert (Hb : b ∈ ranking) by (apply list_elem_of_lookup; eauto).
    destruct (ranking_numbers sorter foods a Hnum Ha) as [Hpa Hna].
    destruct (ranking_numbers sorter foods b Hnum Hb) as [Hpb Hnb].
    assert (Hab := StronglySorted_ranked ranking i j a b
                     (ranking_sorted sorter foods Hnum) Hij Hi Hj).
    unfold ranked_before, sortPercentage in Hab. rewrite Hpa, Hpb in Hab.
    apply double_ltb_false_leb; assumption. }
  split; [apply greedy_rounds, Hn|].
  split.
  - intros k p Hk.
    split; [apply (greedy_after_inv ranking W free k)|].
    destruct (greedy_after_step ranking W free k p Hk)
      as [(Hw & Hv & Hc & _) | (Hw & Hv & Hc & _)]; [left | right].
    + split; [exact Hw|]. split; [|exact Hc].
      unfold after. rewrite Hv, fmap_app. reflexivity.
    + auto.
  - intros k k' Hkk'. apply greedy_after_extends, Hkk'.
Qed.

Lemma greedy_fills_by_ratio_witness :
  greedy_max_calories merge_sorter 3 [apple; bread; plum] 2
  = GreedyFoodVector
      (greedy_after (std_sort merge_sorter (percent_items [apple; bread; plum]))
         2 3 3)
  /\ forall i j a b, (i < j)%nat ->
       std_sort merge_sorter (percent_items [apple; bread; plum]) !! i = Some a ->
       std_sort merge_sorter (percent_items [apple; bread; plum]) !! j = Some b ->
       (ratio (item b) <=? ratio (item a))%float = true.
Proof.
  assert (Hn : Z.of_nat (length [apple; bread; plum]) <= INT_MAX)
    by (vm_compute; discriminate).
  destruct (greedy_fills_by_ratio merge_sorter 3 [apple; bread; plum] 2 Hn)
    as (_ & Horder & Hall & _).
  split; [exact Hall|].
  apply Horder. repeat constructor.
Defined.

(** C4 as stated fails.  With the capacity 0.6 the third item is appended
    although the weights selected before it and its own come to more than
    the capacity: the sum of the doubles rounds down to the capacity.  And
    [sip] is ranked before [cup], whose ratio is greater: the two quotients
    round to the same double, and the sort leaves the two as they stand. *)
Lemma rounding_changes_the_greedy_steps :
  greedy_max_calories merge_sorter 3 [tea; nuts; oats] 0.6
  = [SharedPtr 3 (target oats); SharedPtr 4 (target nuts); SharedPtr 5 (target tea)]
  /\ (exact_value 0.6
      < exact_weight_of [oats; nuts] + exact_value (weight (target tea)))%Q
  /\ libstdcxx_sort sortPercentage (percent_items [sip; cup])
     = Some (percent_items [sip; cup])
  /\ (exact_ratio (target sip) < exact_ratio (target cup))%Q.
Proof. repeat split; vm_compute; reflexivity. Qed.

(** C5 fails: [std::sort] is no stable sort.  Of twenty items of one
    calorie per ounce each, the sort of the GNU library puts the eleventh,
    [K], first, and with the capacity 1 the selection is [K], where a
    stable ranking selects [A]. *)
Lemma ties_may_swap :
  libstdcxx_sort sortPercentage (percent_items (tied_catalog 20))
  = Some (percent_items
            ((fun i => SharedPtr i (mkFoodItem (letter i) 1 1))
               <$> [10; 19; 18; 17; 16; 15; 14; 13; 12; 11;
                    0; 9; 8; 7; 6; 5; 4; 3; 2; 1]%nat))
  /\ ~ keeps_order_of_ties (percent_items (tied_catalog 20))
         (percent_items
            ((fun i => SharedPtr i (mkFoodItem (letter i) 1 1))
               <$> [10; 19; 18; 17; 16; 15; 14; 13; 12; 11;
                    0; 9; 8; 7; 6; 5; 4; 3; 2; 1]%nat))
  /\ GreedyFoodVector
       (greedy_after
          (percent_items
             ((fun i => SharedPtr i (mkFoodItem (letter i) 1 1))
                <$> [10; 19; 18; 17; 16; 15; 14; 13; 12; 11;
                     0; 9; 8; 7; 6; 5; 4; 3; 2; 1]%nat))
          1 20 20)
     = [SharedPtr 20 (mkFoodItem "K" 1 1)]
  /\ GreedyFoodVector (greedy_after (percent_items (tied_catalog 20)) 1 20 20)
     = [SharedPtr 20 (mkFoodItem "A" 1 1)].
Proof.
  split; [vm_compute; reflexivity|].
  split; [|split; vm_compute; reflexivity].
  intros H. specialize (H 1%float). vm_compute in H. discriminate H.
Qed.

(** C5, amended.  When no computed ratio is NaN, the ranking is a
    permutation of the items of the catalog in which no item stands before
    one of a greater computed ratio.  When moreover the comparator
    separates every two items of the catalog (of their computed ratios one
    is greater than the other), the ranking and the selection are the same
    for every sort within the contract of [std::sort]; the order of items
    that the comparator does not separate is not fixed. *)
Theorem ranking_fixed_up_to_ties (sorter1 sorter2 : StdSort) (free : nat)
    (foods : FoodVector) (W : float) :
  ratios_are_numbers foods ->
  (std_sort sorter1 (percent_items foods) ≡ₚ percent_items foods
   /\ StronglySorted (fun a b => (percent b <=? percent a)%float = true)
        (std_sort sorter1 (percent_items foods)))
  /\ (distinct_ratios foods ->
      std_sort sorter1 (percent_items foods)
      = std_sort sorter2 (percent_items foods)
      /\ greedy_max_calories sorter1 free foods W
         = greedy_max_calories sorter2 free foods W).
Proof.
  intros Hnum. split.
  - split; [apply std_sort_permutation|].
    apply (StronglySorted_impl_on ranked_before _ percent_is_number).
    + intros a b Ha Hb Hab. apply double_ltb_false_leb; assumption.
    + rewrite (std_sort_permutation sorter1).
      apply percent_items_numbers, Hnum.
    + apply ranking_sorted, Hnum.
  - intros Hdistinct.
    assert (H := ranking_unique sorter1 sorter2 foods Hnum Hdistinct).
    split; [exact H|].
    unfold greedy_max_calories. rewrite H. reflexivity.
Qed.

Lemma ranking_fixed_up_to_ties_witness :
  greedy_max_calories merge_sorter 3 [apple; bread] 1
  = greedy_max_calories reverse_merge_sorter 3 [apple; bread] 1.
Proof.
  destruct (ranking_fixed_up_to_ties merge_sorter reverse_merge_sorter 3
              [apple; bread] 1) as [_ H].
  - repeat constructor.
  - apply H.
    intros i j a b Hij Ha Hb.
    destruct i as [|[|i]]; destruct j as [|[|j]];
      try discriminate; try congruence;
      cbn in Ha, Hb; injection Ha as <-; injection Hb as <-;
      [left | right]; vm_compute; reflexivity.
Defined.

(** C6 fails for the greedy selection: [bread] has the greater ratio and
    is selected before [apple], which stands first in the catalog. *)
Lemma greedy_selection_not_in_catalog_order :
  target <$> greedy_max_calories merge_sorter 3 [apple; bread] 2
  = [target bread; target apple]
  /\ ~ [target bread; target apple] `sublist_of` target <$> [apple; bread].
Proof.
  split; [vm_compute; reflexivity|].
  intros H. cbn in H.
  apply sublist_cons_r in H. destruct H as [H | (l & Heq & _)].
  - apply sublist_cons_r in H. destruct H as [H | (l & Heq & H)].
    + apply sublist_nil_r in H. discriminate.
    + injection Heq as <-. apply sublist_nil_r in H. discriminate.
  - discriminate.
Qed.

(** C6, amended.  The selection [exhaustive_max_calories] returns is a
    sub-sequence of the catalog.  The selection of [greedy_max_calories]
    is a sub-sequence of the ranking, so its items stand in the order of
    the ranking, and it takes no item more often than the catalog has it. *)
Theorem selections_are_subsequences (sorter : StdSort) (free : nat)
    (foods : FoodVector) (W : float) :
  ((length foods < 31)%nat ->
   exists best, exhaustive_max_calories foods W = Returned best
                /\ best `sublist_of` foods)
  /\ target <$> greedy_max_calories sorter free foods W
     `sublist_of` item <$> std_sort sorter (percent_items foods)
  /\ target <$> greedy_max_calories sorter free foods W ⊆+ target <$> foods.
Proof.
  split; [|split].
  - intros Hn. rewrite exhaustive_max_calories_checks by exact Hn.
    eexists. split; [reflexivity | apply full_checks_sublist].
  - apply greedy_selection_sublist.
  - apply greedy_selection_submseteq.
Qed.

Lemma selections_are_subsequences_witness :
  exists best, exhaustive_max_calories [apple; bread; plum] 2 = Returned best
               /\ best `sublist_of` [apple; bread; plum].
Proof.
  destruct (selections_are_subsequences merge_sorter 3 [apple; bread; plum] 2)
    as [He _].
  apply He. simpl. lia.
Defined.

(** C7 fails for the greedy selection: the item it returns is a new object
    at the address 3, while the catalog holds the addresses 0 and 1. *)
Lemma greedy_selection_is_copied :
  greedy_max_calories merge_sorter 3 [apple; bread] 1
  = [SharedPtr 3 (target bread)]
  /\ ~ exists food, food ∈ [apple; bread] /\ address food = 3%nat.
Proof.
  split; [vm_compute; reflexivity|].
  intros (food & Hin & Haddr).
  apply elem_of_cons in Hin. destruct Hin as [-> | Hin]; [discriminate|].
  apply elem_of_cons in Hin. destruct Hin as [-> | Hin]; [discriminate|].
  inversion Hin.
Qed.

(** C7, amended.  The selection [exhaustive_max_calories] returns consists
    of handles of the catalog, none taken more often than the catalog has
    it; if no handle is repeated in the catalog, none is in the selection.
    Every item in the selection of [greedy_max_calories] is a new object,
    at an address of its own and different from those of the catalog, with
    the description, weight and calories of an item of the catalog; the
    selection has no item more often than the catalog has it. *)
Theorem selections_come_from_catalog (sorter : StdSort) (free : nat)
    (foods : FoodVector) (W : float) :
  ((length foods < 31)%nat ->
   exists best, exhaustive_max_calories foods W = Returned best
                /\ best `sublist_of` foods
                /\ (forall food, food ∈ best -> food ∈ foods)
                /\ (NoDup foods -> NoDup best))
  /\ ((forall food, food ∈ foods -> (address food < free)%nat) ->
      forall p, p ∈ greedy_max_calories sorter free foods W ->
        (forall food, food ∈ foods -> address food <> address p)
        /\ exists food, food ∈ foods /\ target food = target p)
  /\ NoDup (address <$> greedy_max_calories sorter free foods W)
  /\ target <$> greedy_max_calories sorter free foods W ⊆+ target <$> foods.
Proof.
  split; [|split; [|split]].
  - intros Hn. rewrite exhaustive_max_calories_checks by exact Hn.
    eexists. split; [reflexivity|].
    assert (Hsub := full_checks_sublist foods W (subsets (length foods))).
    split; [exact Hsub|]. split.
    + intros food Hfood. eapply elem_of_sublist; eauto.
    + intros Hnodup. eapply sublist_NoDup; eauto.
  - intros Hfree p Hp. split.
    + intros food Hfood Heq.
      assert (Haddr : address p ∈ address <$> greedy_max_calories sorter free foods W)
        by (apply list_elem_of_fmap_2, Hp).
      rewrite greedy_addresses in Haddr. apply elem_of_seq in Haddr.
      specialize (Hfree food Hfood). lia.
    + assert (Hin : target p ∈ target <$> foods).
      { eapply elem_of_submseteq; [|apply (greedy_selection_submseteq sorter free foods W)].
        apply list_elem_of_fmap_2, Hp. }
      apply list_elem_of_fmap in Hin. destruct Hin as (food & Heq & Hfood).
      exists food. auto.
  - rewrite greedy_addresses. apply NoDup_seq.
  - apply greedy_selection_submseteq.
Qed.

Lemma selections_come_from_catalog_witness :
  (exists best, exhaustive_max_calories [apple; bread] 1 = Returned best
                /\ best `sublist_of` [apple; bread])
  /\ forall p, p ∈ greedy_max_calories merge_sorter 3 [apple; bread] 1 ->
       exists food, food ∈ [apple; bread] /\ target food = target p.
Proof.
  destruct (selections_come_from_catalog merge_sorter 3 [apple; bread] 1)
    as (He & Hg & _).
  split.
  - destruct He as (best & Hbest & Hsub & _); [simpl; lia|].
    exists best. auto.
  - intros p Hp. apply Hg; [|exact Hp].
    intros food Hin.
    apply elem_of_cons in Hin. destruct Hin as [-> | Hin]; [simpl; lia|].
    apply elem_of_cons in Hin. destruct Hin as [-> | Hin]; [simpl; lia|].
    inversion Hin.
Defined.

(** C8.  For a catalog of valid items that is empty, or with a capacity
    that is zero or negative, [greedy_max_calories] returns the empty
    selection, and so does [exhaustive_max_calories] whenever it has a
    result (fewer than 31 items); the total weight and the total calories
    of what is returned are both zero. *)
Theorem degenerate_inputs_select_nothing (sorter : StdSort) (free : nat)
    (foods : FoodVector) (W : float) :
  Forall (fun food => FoodItem_valid (target food)) foods ->
  foods = [] \/ (W <=? 0)%float = true ->
  (greedy_max_calories sorter free foods W = []
   /\ sum_food_vector (greedy_max_calories sorter free foods W)
      = (0%float, 0%float))
  /\ ((length foods < 31)%nat ->
      exists best, exhaustive_max_calories foods W = Returned best
                   /\ best = []
                   /\ sum_food_vector best = (0%float, 0%float)).
Proof.
  intros Hvalid Hcase.
  assert (Hg : greedy_max_calories sorter free foods W = []).
  { unfold greedy_max_calories. cbn zeta.
    apply greedy_after_all_rejected.
    intros p Hp.
    assert (Hitem : item p ∈ target <$> foods).
    { rewrite <- (ranking_items sorter foods).
      apply list_elem_of_fmap_2, Hp. }
    apply list_elem_of_fmap in Hitem. destruct Hitem as (food & Heq & Hfood).
    destruct Hcase as [-> | HW]; [inversion Hfood|].
    rewrite Forall_forall in Hvalid. destruct (Hvalid food Hfood) as [_ Hpos].
    rewrite Heq, add_0_positive by exact Hpos.
    exact (double_too_heavy _ _ Hpos HW). }
  split.
  - rewrite Hg. split; reflexivity.
  - intros Hn. rewrite exhaustive_max_calories_checks by exact Hn.
    rewrite (full_checks_none foods W); [| |rewrite subsets_pow; lia].
    + exists []. repeat split.
    + intros m _. apply nothing_selectable; assumption.
Qed.

Lemma degenerate_inputs_select_nothing_witness :
  greedy_max_calories merge_sorter 3 [apple; bread] 0 = []
  /\ exhaustive_max_calories [apple; bread] 0 = Returned [].
Proof.
  assert (Hvalid : Forall (fun food => FoodItem_valid (target food))
                     [apple; bread]).
  { repeat constructor; discriminate. }
  assert (HW : [apple; bread] = [] \/ (0 <=? 0)%float = true)
    by (right; reflexivity).
  destruct (degenerate_inputs_select_nothing merge_sorter 3 [apple; bread] 0
              Hvalid HW) as ((Hg & _) & He).
  split; [exact Hg|].
  destruct He as (best & Hbest & -> & _); [simpl; lia | exact Hbest].
Defined.




(** C10.  For a catalog of fewer than 31 items, the search as written,
    which compares the candidate with the best after every round of the
    loop over the items, returns the selection of the search that examines
    each subset once. *)
Theorem prefix_checks_change_nothing (foods : FoodVector) (W : float) :
  (length foods < 31)%nat ->
  exhaustive_max_calories foods W = Returned (exhaustive_select_spec foods W).
Proof.
  intros Hn. rewrite exhaustive_max_calories_checks by exact Hn.
  rewrite exhaustive_select_spec_checks. reflexivity.
Qed.

Lemma prefix_checks_change_nothing_witness :
  exhaustive_max_calories [apple; bread; plum] 2
  = Returned (exhaustive_select_spec [apple; bread; plum] 2).
Proof. apply (prefix_checks_change_nothing [apple; bread; plum] 2). simpl. lia. Defined.

(** * Further properties *)

(** ** [filter_food_vector] *)

(** X1.  For a size limit within the range of [int],
    [filter_food_vector] returns the first [total_size] foods of the source
    whose calories lie between the two bounds, both included, in the order
    of the source; a limit of zero or less gives the empty vector. *)
Theorem filter_food_vector_first_matches (source : FoodVector) (lo hi : float)
    (total_size : Z) :
  total_size <= INT_MAX ->
  filter_food_vector source lo hi total_size
  = take (Z.to_nat total_size)
      (filter (fun food => calories_within lo hi food = true) source).
Proof.
  intros Hmax. unfold filter_food_vector.
  rewrite filter_loop_take by (try exact Hmax; cbn; lia).
  reflexivity.
Qed.

Lemma filter_food_vector_first_matches_witness :
  filter_food_vector [apple; bread; plum] 10 15 1 = [apple]
  /\ filter_food_vector [apple; bread; plum] 10 15 (-2) = [].
Proof.
  split.
  - rewrite (filter_food_vector_first_matches [apple; bread; plum] 10 15 1)
      by (vm_compute; discriminate).
    vm_compute. reflexivity.
  - rewrite (filter_food_vector_first_matches [apple; bread; plum] 10 15 (-2))
      by (vm_compute; discriminate).
    vm_compute. reflexivity.
Defined.

(** X2.  What [filter_food_vector] returns is a sub-sequence of the
    source, made of the source's own handles; every food in it has its
    calories between the two bounds; and it holds at most [total_size]
    foods, none when [total_size] is zero or negative. *)
Theorem filter_food_vector_guarantees (source : FoodVector) (lo hi : float)
    (total_size : Z) :
  total_size <= INT_MAX ->
  filter_food_vector source lo hi total_size `sublist_of` source
  /\ (forall food, food ∈ filter_food_vector source lo hi total_size ->
        (lo <=? foodCalories (target food))%float = true
        /\ (foodCalories (target food) <=? hi)%float = true)
  /\ Z.of_nat (length (filter_food_vector source lo hi total_size))
     <= Z.max 0 total_size.
Proof.
  intros Hmax. filter_as_take Hmax.
  split; [|split].
  - etrans; [apply sublist_take | apply sublist_filter].
  - intros food Hfood. apply calories_within_spec.
    apply elem_of_take in Hfood. destruct Hfood as (i & Hi & _).
    apply list_elem_of_lookup_2 in Hi.
    apply list_elem_of_filter in Hi. apply Hi.
  - rewrite length_take. lia.
Qed.

Lemma filter_food_vector_guarantees_witness :
  filter_food_vector [apple; bread; plum] 10 15 5 `sublist_of` [apple; bread; plum].
Proof.
  apply (filter_food_vector_guarantees [apple; bread; plum] 10 15 5).
  vm_compute. discriminate.
Defined.

(** X3.  When no more than [total_size] foods of the source match,
    [filter_food_vector] returns all of them; and once [total_size]
    foods of the source match, whatever follows the source changes
    nothing. *)
Theorem filter_food_vector_all_or_cut (source more : FoodVector) (lo hi : float)
    (total_size : Z) :
  total_size <= INT_MAX ->
  let matches := filter (fun food => calories_within lo hi food = true) source in
  (Z.of_nat (length matches) <= total_size ->
   filter_food_vector source lo hi total_size = matches)
  /\ (total_size <= Z.of_nat (length matches) ->
      filter_food_vector (source ++ more) lo hi total_size
      = filter_food_vector source lo hi total_size).
Proof.
  intros Hmax matches. split; intros Hlen.
  - filter_as_take Hmax. apply take_ge. fold matches. lia.
  - filter_as_take Hmax.
    rewrite filter_app. fold matches. apply take_app_le. lia.
Qed.

Lemma filter_food_vector_all_or_cut_witness :
  filter_food_vector [apple; bread; plum] 10 15 2 = [apple; plum]
  /\ filter_food_vector ([apple; bread; plum] ++ [item_A]) 10 15 2
     = filter_food_vector [apple; bread; plum] 10 15 2.
Proof.
  destruct (filter_food_vector_all_or_cut [apple; bread; plum] [item_A] 10 15 2)
    as [Hall Hcut]; [vm_compute; discriminate|].
  split.
  - rewrite Hall by (vm_compute; discriminate). vm_compute. reflexivity.
  - apply Hcut. vm_compute. discriminate.
Defined.

(** X4.  Filtering what [filter_food_vector] returned, with the same
    bounds and the same limit, changes nothing. *)
Theorem filter_food_vector_idempotent (source : FoodVector) (lo hi : float)
    (total_size : Z) :
  total_size <= INT_MAX ->
  filter_food_vector (filter_food_vector source lo hi total_size) lo hi total_size
  = filter_food_vector source lo hi total_size.
Proof.
  intros Hmax. filter_as_take Hmax.
  rewrite filter_all.
  - rewrite take_take. f_equal. lia.
  - apply Forall_take. apply Forall_forall. intros food Hfood.
    apply list_elem_of_filter in Hfood. apply Hfood.
Qed.

Lemma filter_food_vector_idempotent_witness :
  filter_food_vector (filter_food_vector [apple; bread; plum] 10 15 1) 10 15 1
  = filter_food_vector [apple; bread; plum] 10 15 1.
Proof.
  apply (filter_food_vector_idempotent [apple; bread; plum] 10 15 1).
  vm_compute. discriminate.
Defined.

(** X5.  After [filter_food_vector] with a limit of at most 30,
    [exhaustive_max_calories] always returns a selection, whatever the size
    of the source; the selection is a sub-sequence of the source and its
    foods have their calories between the two bounds. *)
Theorem filter_then_exhaustive (source : FoodVector) (lo hi : float)
    (total_size : Z) (W : float) :
  total_size <= 30 ->
  exists best,
    exhaustive_max_calories (filter_food_vector source lo hi total_size) W
    = Returned best
    /\ best `sublist_of` source
    /\ forall food, food ∈ best ->
         (lo <=? foodCalories (target food))%float = true
         /\ (foodCalories (target food) <=? hi)%float = true.
Proof.
  intros Hsize.
  assert (Hmax : total_size <= INT_MAX) by (change INT_MAX with 2147483647; lia).
  filter_as_take Hmax.
  set (matches := filter (fun food => calories_within lo hi food = true) source).
  set (kept := take (Z.to_nat total_size) matches).
  assert (Hlen : (length kept < 31)%nat) by (unfold kept; rewrite length_take; lia).
  rewrite exhaustive_max_calories_checks by exact Hlen.
  eexists. split; [reflexivity|].
  assert (Hbest := full_checks_sublist kept W (subsets (length kept))).
  split.
  - etrans; [exact Hbest|].
    etrans; [apply sublist_take | apply sublist_filter].
  - intros food Hfood. apply calories_within_spec.
    assert (Hin : food ∈ matches).
    { eapply elem_of_sublist; [exact Hfood|].
      etrans; [exact Hbest | apply sublist_take]. }
    apply list_elem_of_filter in Hin. apply Hin.
Qed.

Lemma filter_then_exhaustive_witness :
  exists best,
    exhaustive_max_calories (filter_food_vector (catalog_of_size 40) 1 1 3) 2
    = Returned best
    /\ best `sublist_of` catalog_of_size 40.
Proof.
  destruct (filter_then_exhaustive (catalog_of_size 40) 1 1 3 2) as (best & H1 & H2 & _).
  - lia.
  - exists best. auto.
Defined.

(** ** The two solvers *)

(** X6.  For a catalog of fewer than 31 items and two capacities, the
    second at least the first: the selection [exhaustive_max_calories]
    returns for the first capacity never has greater total calories than
    the one it returns for the second, the totals being those that
    [sum_food_vector] computes (sums of doubles in the order of the
    selection). *)
Theorem exhaustive_monotone_in_capacity (foods : FoodVector) (W W' : float) :
  (length foods < 31)%nat -> (W <=? W')%float = true ->
  exists best best',
    exhaustive_max_calories foods W = Returned best
    /\ exhaustive_max_calories foods W' = Returned best'
    /\ (total_calories_of best' <? total_calories_of best)%float = false
    /\ (total_calories_of best <=? total_calories_of best')%float = true.
Proof.
  intros Hn HW. rewrite !exhaustive_max_calories_checks by exact Hn.
  eexists. eexists. split; [reflexivity|]. split; [reflexivity|].
  assert (Hlt : (total_calories_of
                   (fst (full_checks foods W' (subsets (length foods))))
                 <? total_calories_of
                      (fst (full_checks foods W (subsets (length foods)))))%float
                = false).
  { destruct (full_checks_feasible foods W (subsets (length foods)))
      as [-> | Hfit].
    - rewrite <- full_checks_calories. apply full_checks_nonneg.
    - apply exhaustive_beats_sublist.
      + apply full_checks_sublist.
      + exact (double_leb_trans _ _ _ Hfit HW). }
  split; [exact Hlt|].
  apply double_ltb_false_leb; [exact Hlt | apply full_checks_number..].
Qed.

Lemma exhaustive_monotone_in_capacity_witness :
  exists best best',
    exhaustive_max_calories [apple; bread; plum] 1 = Returned best
    /\ exhaustive_max_calories [apple; bread; plum] 2 = Returned best'
    /\ (total_calories_of best' <? total_calories_of best)%float = false
    /\ (total_calories_of best <=? total_calories_of best')%float = true.
Proof.
  apply (exhaustive_monotone_in_capacity [apple; bread; plum] 1 2).
  - simpl. lia.
  - reflexivity.
Defined.

(** X8.  For a catalog of valid items whose size fits an [int]: in every
    round of its loop [greedy_max_calories] either appends a copy of the
    item at hand, or that item does not fit beside the final selection
    either, by the sum and the comparison the code computes in double
    arithmetic.  No item left out passes the test of the loop at the end. *)
Theorem greedy_leaves_nothing_that_fits (sorter : StdSort) (free : nat)
    (foods : FoodVector) (W : float) :
  Forall (fun food => FoodItem_valid (target food)) foods ->
  Z.of_nat (length foods) <= INT_MAX ->
  let ranking := std_sort sorter (percent_items foods) in
  let chosen := greedy_max_calories sorter free foods W in
  forall k p, ranking !! k = Some p ->
    (exists a,
       GreedyFoodVector (greedy_after ranking W free (Datatypes.S k))
       = GreedyFoodVector (greedy_after ranking W free k)
         ++ [SharedPtr a (item p)])
    \/ (total_weight_of chosen + weight (item p) <=? W)%float = false.
Proof.
  intros Hvalid Hn ranking chosen k p Hk.
  assert (Hpos : forall q, q ∈ ranking -> (0 <? weight (item q))%float = true).
  { intros q Hq.
    assert (Hitem : item q ∈ target <$> foods).
    { rewrite <- (ranking_items sorter foods). apply list_elem_of_fmap_2, Hq. }
    apply list_elem_of_fmap in Hitem. destruct Hitem as (food & -> & Hfood).
    rewrite Forall_forall in Hvalid. apply (Hvalid food Hfood). }
  destruct (greedy_after_step ranking W free k p Hk)
    as [(_ & Hv & _) | (Hrej & _)].
  - left. eexists. exact Hv.
  - right.
    unfold chosen. rewrite greedy_rounds by exact Hn. fold ranking.
    destruct (greedy_after_inv ranking W free (length ranking)) as (<- & _).
    assert (Hkl : (k <= length ranking)%nat)
      by (apply lookup_lt_Some in Hk; lia).
    destruct (greedy_capacity_grows ranking W free Hpos k (length ranking) Hkl)
      as [Hzero Hgrow].
    assert (Hw : (0 <? weight (item p))%float = true)
      by (apply Hpos; eapply list_elem_of_lookup_2, Hk).
    assert (Hmono := double_add_mono _ _ _ Hzero Hgrow Hw).
    destruct (capacity (greedy_after ranking W free (length ranking))
              + weight (item p) <=? W)%float eqn:Hfit; [|reflexivity].
    rewrite (double_leb_trans _ _ _ Hmono Hfit) in Hrej. discriminate.
Qed.

Lemma greedy_leaves_nothing_that_fits_witness :
  (total_weight_of (greedy_max_calories merge_sorter 3 [rice; mint; figs] 3.9)
   + weight (target rice) <=? 3.9)%float = false.
Proof.
  assert (Hvalid : Forall (fun food => FoodItem_valid (target food))
                     [rice; mint; figs]).
  { repeat constructor; discriminate. }
  assert (Hn : Z.of_nat (length [rice; mint; figs]) <= INT_MAX)
    by (vm_compute; discriminate).
  destruct (greedy_leaves_nothing_that_fits merge_sorter 3 [rice; mint; figs] 3.9
              Hvalid Hn 2%nat (mkPercentItem (1 / 1.7) (target rice)))
    as [(a & Happended) | Hfull].
  - vm_compute. reflexivity.
  - vm_compute in Happended. discriminate Happended.
  - exact Hfull.
Defined.

(** X9.  When no computed ratio of the catalog is NaN, the items of the
    selection of [greedy_max_calories] stand in order of falling computed
    calories per ounce (the rounded quotients the code sorts by): none
    stands before an item of a greater one. *)
Theorem greedy_selection_by_falling_ratio (sorter : StdSort) (free : nat)
    (foods : FoodVector) (W : float) :
  ratios_are_numbers foods ->
  StronglySorted (fun a b => (ratio b <=? ratio a)%float = true)
    (target <$> greedy_max_calories sorter free foods W).
Proof.
  intros Hnum.
  eapply StronglySorted_sublist; [apply greedy_selection_sublist|].
  assert (Hsorted := ranking_sorted sorter foods Hnum).
  assert (Hpercent : Forall (fun p => percent p = ratio (item p)
                                      /\ is_nan (ratio (item p)) = false)
                       (std_sort sorter (percent_items foods))).
  { apply Forall_forall. intros p Hp. apply (ranking_numbers sorter foods p Hnum Hp). }
  induction Hsorted as [|p r Hsorted IH Hall]; [constructor|].
  apply Forall_cons in Hpercent. destruct Hpercent as [[Hp Hnp] Hr].
  cbn. constructor; [apply IH, Hr|].
  rewrite Forall_fmap. rewrite Forall_forall in Hall, Hr.
  apply Forall_forall. intros q Hq. cbn.
  destruct (Hr q Hq) as [Hpq Hnq].
  specialize (Hall q Hq). unfold ranked_before, sortPercentage in Hall.
  rewrite Hp, Hpq in Hall.
  apply double_ltb_false_leb; assumption.
Qed.

Lemma greedy_selection_by_falling_ratio_witness :
  StronglySorted (fun a b => (ratio b <=? ratio a)%float = true)
    (target <$> greedy_max_calories merge_sorter 3 [apple; bread; plum] 2).
Proof.
  apply (greedy_selection_by_falling_ratio merge_sorter 3 [apple; bread; plum] 2).
  repeat constructor.
Defined.

(** ** [load_food_database] *)

(** X10.  Reading fields with [std::getline] undoes joining them with
    the delimiter, when no field holds the delimiter and the last field is
    not empty; one delimiter after the last field is dropped.  So the row
    [bread^1^20^] has the three fields of [bread^1^20]. *)
Theorem getline_all_concat (delim : ascii) (fields : list string) :
  Forall (fun field => occurs delim field = false) fields ->
  last fields <> Some EmptyString ->
  getline_all delim EmptyString (String.concat (String delim EmptyString) fields)
  = fields
  /\ (fields <> [] ->
      getline_all delim EmptyString
        (append (String.concat (String delim EmptyString) fields)
           (String delim EmptyString))
      = fields).
Proof.
  induction 1 as [|x fields Hx Hfields IH]; intros Hlast.
  - split; [reflexivity | congruence].
  - destruct fields as [|y fields].
    + cbn [String.concat]. split.
      * rewrite (getline_all_last delim x Hx). cbn [append].
        destruct x; [cbn in Hlast; congruence | reflexivity].
      * intros _. rewrite (getline_all_field delim x Hx). reflexivity.
    + destruct (IH Hlast) as [IH1 IH2].
      change (String.concat (String delim EmptyString) (x :: y :: fields))
        with (append x (String delim
                (String.concat (String delim EmptyString) (y :: fields)))).
      split.
      * rewrite (getline_all_field delim x Hx), IH1. reflexivity.
      * intros _. rewrite append_assoc. cbn [append].
        rewrite (getline_all_field delim x Hx), IH2 by discriminate.
        reflexivity.
Qed.

Lemma getline_all_concat_witness :
  getline_all "^"%char EmptyString "bread^1^20"%string
  = ["bread"; "1"; "20"]%string
  /\ getline_all "^"%char EmptyString "bread^1^20^"%string
     = ["bread"; "1"; "20"]%string.
Proof.
  destruct (getline_all_concat "^"%char ["bread"; "1"; "20"]%string)
    as [H1 H2].
  - repeat constructor.
  - cbn. discriminate.
  - split; [exact H1 | apply H2; discriminate].
Defined.

(** X11.  When [load_food_database] returns a vector, the vector has one
    item for each line after the first, in the order of the file: each of
    those lines has exactly three fields; [ss >> output] has stored a
    number for the second and for the third; the first, not empty, is the
    description, the number of the second, positive, the weight, and the
    number of the third the calories; the items are new objects at
    consecutive addresses.  No line is skipped. *)
Theorem load_gives_one_item_per_row (read_double : string -> option float)
    (free : nat) (text header : string) (data : list string) (v : FoodVector) :
  getline_all "010"%char EmptyString text = header :: data ->
  load_food_database read_double free (Some text) = Loaded v ->
  Forall2 (row_item read_double) data (target <$> v)
  /\ address <$> v = seq free (length data).
Proof.
  intros Hlines Hload.
  rewrite (load_food_database_lines _ _ _ _ _ Hlines) in Hload.
  destruct (load_lines_Loaded read_double data 1 [] free v ltac:(lia) Hload)
    as (items & -> & Hrows & Haddr).
  auto.
Qed.

Lemma load_gives_one_item_per_row_witness :
  Forall2 (row_item read_whole) ["apple^1^10"; "bread^1^20^"]%string
    (target <$> [apple; bread]).
Proof.
  apply (load_gives_one_item_per_row read_whole 0 sample_file
           "description^weight^calories"%string
           ["apple^1^10"; "bread^1^20^"]%string [apple; bread]);
    vm_compute; reflexivity.
Defined.

(** X12.  Every vector [load_food_database] returns holds valid items
    only (description not empty, weight positive), each at an address of
    its own, none in use before the call. *)
Theorem loaded_catalog_is_valid (read_double : string -> option float)
    (free : nat) (file : option string) (v : FoodVector) :
  load_food_database read_double free file = Loaded v ->
  Forall (fun food => FoodItem_valid (target food)) v
  /\ NoDup (address <$> v)
  /\ forall food, food ∈ v -> (free <= address food)%nat.
Proof.
  intros Hload. destruct file as [text|]; [|discriminate].
  unfold load_food_database in Hload.
  assert (Hshape : exists items lines,
             v = items
             /\ Forall2 (row_item read_double) lines (target <$> items)
             /\ address <$> items = seq free (length lines)).
  { destruct (getline_all "010"%char EmptyString text) as [|header data].
    - cbn in Hload. injection Hload as <-. exists [], []. repeat split. constructor.
    - change (load_lines read_double (header :: data) 0 [] free)
        with (load_lines read_double data 1 [] free) in Hload.
      destruct (load_lines_Loaded read_double data 1 [] free v ltac:(lia) Hload)
        as (items & -> & Hrows & Haddr).
      exists items, data. auto. }
  destruct Hshape as (items & lines & -> & Hrows & Haddr).
  split; [|split].
  - assert (Hvalid : Forall FoodItem_valid (target <$> items)).
    { eapply Forall2_Forall_r; [exact Hrows|].
      apply Forall_forall.
      intros line _ food (d & w & c & x & y & _ & _ & _ & _ & Hvalid).
      exact Hvalid. }
    exact (proj1 (Forall_fmap _ _ _) Hvalid).
  - rewrite Haddr. apply NoDup_seq.
  - intros food Hfood.
    assert (Hin : address food ∈ address <$> items)
      by (apply list_elem_of_fmap_2, Hfood).
    rewrite Haddr in Hin. apply elem_of_seq in Hin. lia.
Qed.

Lemma loaded_catalog_is_valid_witness :
  Forall (fun food => FoodItem_valid (target food)) [apple; bread].
Proof.
  apply (loaded_catalog_is_valid read_whole 0 (Some sample_file) [apple; bread]).
  vm_compute. reflexivity.
Defined.

(** X13.  The first line after the header that does not give an item
    decides the call, whatever follows it.  [load_food_database] returns
    the null pointer when the line does not have exactly three fields.
    When it has three but [ss >> output] stores no number for the second
    or for the third, the item is constructed from a [double] that holds
    no value.  When both numbers are stored but the description is empty
    or the weight is not greater than zero, the assertion of [FoodItem]
    fails.  Such a line is not skipped, and the items read before it are
    lost. *)
Theorem load_stops_at_first_bad_row (read_double : string -> option float)
    (free : nat) (text header : string) (good : list string) (bad : string)
    (rest : list string) :
  getline_all "010"%char EmptyString text = header :: good ++ bad :: rest ->
  Forall (fun line => exists food, row_item read_double line food) good ->
  (length (getline_all "^"%char EmptyString bad) <> 3%nat ->
   load_food_database read_double free (Some text) = Failure)
  /\ (forall d w c,
        getline_all "^"%char EmptyString bad = [d; w; c] ->
        (read_double w = None \/ read_double c = None ->
         load_food_database read_double free (Some text) = Indeterminate)
        /\ (forall x y,
              read_double w = Some x -> read_double c = Some y ->
              d = EmptyString \/ (0 <? x)%float = false ->
              load_food_database read_double free (Some text) = Aborted)).
Proof.
  intros Hlines Hgood.
  rewrite (load_food_database_lines _ _ _ _ _ Hlines).
  destruct (load_lines_good read_double good (bad :: rest) Hgood 1 [] free
              ltac:(lia)) as (items & _ & ->).
  rewrite load_lines_step by lia.
  split.
  - intros Hcount.
    destruct (getline_all "^"%char EmptyString bad)
      as [|d [|w [|c [|x fields]]]]; try reflexivity.
    cbn in Hcount. congruence.
  - intros d w c ->. split.
    + intros [Hw | Hc].
      * rewrite Hw. reflexivity.
      * rewrite Hc. destruct (read_double w); reflexivity.
    + intros x y -> -> Hbad.
      rewrite (new_FoodItem_None d x y Hbad). reflexivity.
Qed.

Lemma load_stops_at_first_bad_row_witness :
  load_food_database read_whole 0
    (Some (String.concat (String "010"%char EmptyString)
             ["description^weight^calories"; "apple^1^10"; "bread^1";
              "plum^1^10"]%string))
  = Failure
  /\ load_food_database read_whole 0
       (Some (String.concat (String "010"%char EmptyString)
                ["description^weight^calories"; "apple^1^10"; "bread^^20";
                 "plum^1^10"]%string))
     = Indeterminate
  /\ load_food_database read_whole 0
       (Some (String.concat (String "010"%char EmptyString)
                ["description^weight^calories"; "apple^1^10"; "bread^0^20";
                 "plum^1^10"]%string))
     = Aborted.
Proof.
  assert (Hgood : Forall (fun line => exists food, row_item read_whole line food)
                    ["apple^1^10"%string]).
  { constructor; [|constructor].
    exists (target apple), "apple"%string, "1"%string, "10"%string,
      1%float, 10%float.
    repeat split. discriminate. }
  split; [|split].
  - destruct (load_stops_at_first_bad_row read_whole 0
                (String.concat (String "010"%char EmptyString)
                   ["description^weight^calories"; "apple^1^10"; "bread^1";
                    "plum^1^10"]%string)
                "description^weight^calories"%string ["apple^1^10"%string]
                "bread^1"%string ["plum^1^10"%string]) as [H _];
      [vm_compute; reflexivity | exact Hgood |].
    apply H. vm_compute. discriminate.
  - destruct (load_stops_at_first_bad_row read_whole 0
                (String.concat (String "010"%char EmptyString)
                   ["description^weight^calories"; "apple^1^10"; "bread^^20";
                    "plum^1^10"]%string)
                "description^weight^calories"%string ["apple^1^10"%string]
                "bread^^20"%string ["plum^1^10"%string]) as [_ H];
      [vm_compute; reflexivity | exact Hgood |].
    apply (H "bread"%string EmptyString "20"%string); [reflexivity|].
    left. reflexivity.
  - destruct (load_stops_at_first_bad_row read_whole 0
                (String.concat (String "010"%char EmptyString)
                   ["description^weight^calories"; "apple^1^10"; "bread^0^20";
                    "plum^1^10"]%string)
                "description^weight^calories"%string ["apple^1^10"%string]
                "bread^0^20"%string ["plum^1^10"%string]) as [_ H];
      [vm_compute; reflexivity | exact Hgood |].
    apply (proj2 (H "bread"%string "0"%string "20"%string eq_refl) 0%float 20%float);
      [reflexivity | reflexivity |].
    right. reflexivity.
Defined.

(** X14.  The first line of the file is never read as data: a file of
    one line gives the empty vector, and two files that differ in their
    first line only load alike. *)
Theorem header_line_is_not_data (read_double : string -> option float)
    (free : nat) (header header' body : string) :
  occurs "010"%char header = false ->
  occurs "010"%char header' = false ->
  load_food_database read_double free (Some header) = Loaded []
  /\ load_food_database read_double free
       (Some (append header (String "010"%char body)))
     = load_food_database read_double free
         (Some (append header' (String "010"%char body))).
Proof.
  intros Hh Hh'. unfold load_food_database. split.
  - rewrite (getline_all_last _ header Hh). cbn [append].
    destruct header; reflexivity.
  - rewrite (getline_all_field _ header Hh), (getline_all_field _ header' Hh').
    reflexivity.
Qed.

Lemma header_line_is_not_data_witness :
  load_food_database read_whole 0 (Some "apple^1^10"%string) = Loaded []
  /\ load_food_database read_whole 0
       (Some (append "apple^1^10" (String "010"%char "bread^1^20"))%string)
     = load_food_database read_whole 0
         (Some (append "name^oz^kcal" (String "010"%char "bread^1^20"))%string).
Proof.
  apply (header_line_is_not_data read_whole 0 "apple^1^10"%string
           "name^oz^kcal"%string "bread^1^20"%string); reflexivity.
Defined.

(** ** [sum_food_vector] *)

(** X15.  For a vector of valid items that is not empty, the total weight
    that [sum_food_vector] computes is greater than zero: the rounded sums
    of positive doubles never come to zero or to NaN.  So no such vector
    fits a capacity of zero or less. *)
Theorem sum_food_vector_weight_positive (foods : FoodVector) (W : float) :
  Forall (fun food => FoodItem_valid (target food)) foods ->
  foods <> [] ->
  (0 <? fst (sum_food_vector foods))%float = true
  /\ ((W <=? 0)%float = true ->
      (fst (sum_food_vector foods) <=? W)%float = false).
Proof.
  intros Hvalid Hne.
  assert (Hpos := total_weight_of_positive foods Hvalid Hne).
  split; [exact Hpos|].
  intros HW. exact (double_too_heavy _ _ Hpos HW).
Qed.

Lemma sum_food_vector_weight_positive_witness :
  (0 <? fst (sum_food_vector [tea; nuts; oats]))%float = true.
Proof.
  apply (sum_food_vector_weight_positive [tea; nuts; oats] 0).
  - repeat constructor; discriminate.
  - discriminate.
Defined.

(** X16.  For a vector of valid items, the total weight that
    [sum_food_vector] computes never falls as the vector grows at its end:
    the rounded total of the whole vector is at least that of each of its
    prefixes.  So a vector with a prefix computed too heavy for a capacity
    is computed too heavy itself. *)
Theorem sum_food_vector_weight_grows (foods more : FoodVector) (W : float) :
  Forall (fun food => FoodItem_valid (target food)) (foods ++ more) ->
  (fst (sum_food_vector foods) <=? fst (sum_food_vector (foods ++ more)))%float
  = true
  /\ ((fst (sum_food_vector foods) <=? W)%float = false ->
      (fst (sum_food_vector (foods ++ more)) <=? W)%float = false).
Proof.
  intros Hvalid.
  assert (Hle := total_weight_of_prefix foods more Hvalid).
  unfold total_weight_of in Hle.
  split; [exact Hle|].
  intros Hheavy.
  destruct (fst (sum_food_vector (foods ++ more)) <=? W)%float eqn:Hfit;
    [|reflexivity].
  rewrite (double_leb_trans _ _ _ Hle Hfit) in Hheavy. discriminate.
Qed.

Lemma sum_food_vector_weight_grows_witness :
  (fst (sum_food_vector [mint; figs])
   <=? fst (sum_food_vector ([mint; figs] ++ [rice])))%float = true.
Proof.
  apply (sum_food_vector_weight_grows [mint; figs] [rice] 3.9).
  repeat constructor; discriminate.
Defined.
